(** * bigflow: workflow definition and execution engine

    A shallow embedding of [bigflow/workflow.py]: the job graph, its
    validator ([JobGraphValidator]), the order resolver
    ([JobOrderResolver]), graph construction ([Definition]), the run loop
    ([Workflow]) and the start-time helpers.

    Conventions.
    - A Python [dict]/[OrderedDict] is an association list in insertion
      order; keys are compared the way Python does, through [__hash__] and
      [__eq__], which for [WorkflowJob] look at [name] only.  The function
      [key] below is that identity.  A dict never holds two entries with
      equal keys; on a list that does, a lookup sees the first of them.
    - A Python [set] of nodes is a [gset] of keys.
    - Recursive methods take a [fuel] argument bounding the recursion
      depth; the public entry points supply enough of it, which is proved.
    - A call that may raise returns a [result]. *)

From stdpp Require Import gmap strings list pretty.
From Stdlib Require Import ZArith Lia Ascii.

(** ** Results of calls that may raise *)

Inductive result (E A : Type) : Type :=
| Return (a : A)
| Raise (e : E)
| OutOfFuel.
Arguments Return {E A} a.
Arguments Raise {E A} e.
Arguments OutOfFuel {E A}.

Definition bind {E A B} (r : result E A) (k : A → result E B) : result E B :=
  match r with
  | Return a => k a
  | Raise e => Raise e
  | OutOfFuel => OutOfFuel
  end.

(** The Python exceptions that the modelled code raises.  What a job's
    [execute] raises is any value of this type. *)
Inductive PyExn : Type :=
| ValueError (msg : string)
| NameError (name : string)
| KeyError
| OverflowError
| InvalidJobGraphError (msg : string)
| Exception (msg : string)
| AttributeError (name : string).

(** [for x in l: body(x)] over a threaded state; a raise leaves the loop. *)
Fixpoint for_each {E A S} (body : A → S → result E S) (l : list A) (s : S)
  : result E S :=
  match l with
  | [] => Return s
  | x :: l' => bind (body x s) (for_each body l')
  end.

(** Two runs that end the same way, with related results. *)
Definition result_rel {E A B} (R : A → B → Prop)
    (r1 : result E A) (r2 : result E B) : Prop :=
  match r1, r2 with
  | Return a, Return b => R a b
  | Raise e1, Raise e2 => e1 = e2
  | OutOfFuel, OutOfFuel => True
  | _, _ => False
  end.

(** ** Ordered dictionaries keyed by node identity *)

Section Graph.
Context {N K : Type} `{Countable K}.
Variable key : N → K.

Definition odict (V : Type) : Type := list (N * V).

(** [d[k]] (None stands for KeyError) *)
Fixpoint od_get {V} (d : odict V) (k : K) : option V :=
  match d with
  | [] => None
  | (n, v) :: d' => if decide (key n = k) then Some v else od_get d' k
  end.

(** [k in d] *)
Definition od_mem {V} (d : odict V) (k : K) : bool :=
  match od_get d k with Some _ => true | None => false end.

(** [d[n] = v]: an existing entry keeps its position and its key object,
    a new one goes last. *)
Fixpoint od_set {V} (d : odict V) (n : N) (v : V) : odict V :=
  match d with
  | [] => [(n, v)]
  | (m, w) :: d' =>
      if decide (key m = key n) then (m, v) :: d' else (m, w) :: od_set d' n v
  end.

(** [d[k].append(x)], the list object stored under [k] mutated in place *)
Fixpoint od_append (d : odict (list N)) (k : K) (x : N) : odict (list N) :=
  match d with
  | [] => []
  | (m, l) :: d' =>
      if decide (key m = k) then (m, l ++ [x]) :: d' else (m, l) :: od_append d' k x
  end.

(** [if n not in d: d[n] = []] *)
Definition od_ensure (d : odict (list N)) (n : N) : odict (list N) :=
  if od_mem d (key n) then d else od_set d n [].

(** [for n in d] iterates the keys in insertion order. *)
Definition od_keys {V} (d : odict V) : list N := map fst d.

(** The job graph: node -> list of its dependency targets. *)
Definition graph : Type := odict (list N).

(** ** JobGraphValidator *)

(** [InvalidJobGraph(f"Found cyclic dependency on job {job}")], kept as the
    job the message names. *)
Inductive InvalidJobGraph : Type :=
| Found_cyclic_dependency_on_job (job : N).

(** [_validate_job(job, visited, stack)]; the state is [(visited, stack)]. *)
Fixpoint _validate_job (fuel : nat) (job_graph : graph) (job : N)
    (st : gset K * gset K) : result InvalidJobGraph (gset K * gset K) :=
  match fuel with
  | O => OutOfFuel
  | S fuel =>
      let '(visited, stack) := st in
      if decide (key job ∈ stack) then
        Raise (Found_cyclic_dependency_on_job job)
      else if decide (key job ∈ visited) then Return (visited, stack)
      else
        let visited := {[key job]} ∪ visited in
        match od_get job_graph (key job) with
        | None => Return (visited, stack)
        | Some deps =>
            let stack := {[key job]} ∪ stack in
            bind (for_each (_validate_job fuel job_graph) deps (visited, stack))
                 (λ '(visited, stack), Return (visited, stack ∖ {[key job]}))
        end
  end.

(** Every node of the graph: its keys and the targets listed under them
    ([job_graph[k]] for each key [k]). *)
Definition graph_nodes (job_graph : graph) : list N :=
  od_keys job_graph
  ++ (od_keys job_graph ≫= λ n, default [] (od_get job_graph (key n))).

Definition _validate_if_not_cyclic (job_graph : graph)
  : result InvalidJobGraph unit :=
  bind (for_each (_validate_job (S (length (graph_nodes job_graph))) job_graph)
                 (od_keys job_graph) (∅, ∅))
       (λ _, Return tt).

Definition validate (job_graph : graph) : result InvalidJobGraph unit :=
  _validate_if_not_cyclic job_graph.

(** ** JobOrderResolver *)

(** [_fill_parental_map(job, parental_map, visited)]; the state is
    [(parental_map, visited)]. *)
Fixpoint _fill_parental_map (fuel : nat) (job_graph : graph) (job : N)
    (st : odict (list N) * gset K) : result PyExn (odict (list N) * gset K) :=
  match fuel with
  | O => OutOfFuel
  | S fuel =>
      let '(parental_map, visited) := st in
      match od_get job_graph (key job) with
      | None => Return (parental_map, visited)
      | Some deps =>
          if decide (key job ∈ visited) then Return (parental_map, visited)
          else
            let visited := {[key job]} ∪ visited in
            let parental_map := od_ensure parental_map job in
            for_each
              (λ dependency '(parental_map, visited),
                 let parental_map := od_ensure parental_map dependency in
                 let parental_map :=
                   od_append parental_map (key dependency) job in
                 _fill_parental_map fuel job_graph dependency
                   (parental_map, visited))
              deps (parental_map, visited)
      end
  end.

Definition _build_parental_map (job_graph : graph)
  : result PyExn (odict (list N)) :=
  bind (for_each (_fill_parental_map (S (length job_graph)) job_graph)
                 (od_keys job_graph) ([], ∅))
       (λ '(parental_map, _), Return parental_map).

Record JobOrderResolver : Type := {
  job_graph : graph;
  parental_map : odict (list N);
}.

(** [JobOrderResolver.__init__] *)
Definition JobOrderResolver_init (job_graph : graph)
  : result PyExn JobOrderResolver :=
  bind (_build_parental_map job_graph)
       (λ pm, Return {| job_graph := job_graph; parental_map := pm |}).

(** [_call_on_graph_node_helper(job, parental_map, visited, consumer)].
    The consumer is a state transformer on [C]; the state threaded through
    the traversal is [(visited, c)]. *)
Fixpoint _call_on_graph_node_helper {C} (fuel : nat) (job : N)
    (parental_map : odict (list N)) (consumer : N → list N → C → C)
    (st : gset K * C) : result PyExn (gset K * C) :=
  match fuel with
  | O => OutOfFuel
  | S fuel =>
      let '(visited, c) := st in
      if decide (key job ∈ visited) then Return (visited, c)
      else
        let visited := {[key job]} ∪ visited in
        match od_get parental_map (key job) with
        | None => Raise KeyError
        | Some parents =>
            bind (for_each
                    (λ parent,
                       _call_on_graph_node_helper fuel parent parental_map consumer)
                    parents (visited, c))
                 (λ '(visited, c), Return (visited, consumer job parents c))
        end
  end.

Definition call_on_graph_nodes {C} (self : JobOrderResolver)
    (consumer : N → list N → C → C) (c : C) : result PyExn C :=
  bind (for_each
          (λ job,
             _call_on_graph_node_helper (S (length (parental_map self))) job
               (parental_map self) consumer)
          (od_keys (parental_map self)) (∅, c))
       (λ '(_, c), Return c).

Definition find_sequential_run_order (self : JobOrderResolver)
  : result PyExn (list N) :=
  let add_to_ordered_job (job : N) (dependencies : list N)
        (ordered_jobs : list N) := ordered_jobs ++ [job] in
  call_on_graph_nodes self add_to_ordered_job [].

(** The consumer that records its own invocations, in order. *)
Definition record_call (job : N) (parents : list N) (calls : list (N * list N))
  : list (N * list N) := calls ++ [(job, parents)].

(** ** Definition._convert_list_to_graph *)

Definition _convert_list_to_graph (job_list : list N) : graph :=
  if decide (length job_list = 1) then
    match job_list !! 0 with
    | Some j => od_set [] j []
    | None => []
    end
  else
    fold_left
      (λ graph_as_dict i,
         match job_list !! (i - 1), job_list !! i with
         | Some a, Some b => od_set graph_as_dict a [b]
         | _, _ => graph_as_dict
         end)
      (seq 1 (length job_list - 1)) [].

(** ** The dependency relation of a graph *)

(** [edge g a b]: the entry of [a] lists [b] as a target, so [a] is a parent
    of [b]. *)
Definition edge (g : graph) (a b : K) : Prop :=
  ∃ deps, od_get g a = Some deps ∧ b ∈ map key deps.

(** [a] reaches [b] along one or more edges. *)
Definition path (g : graph) : K → K → Prop := tc (edge g).

Definition acyclic (g : graph) : Prop := ∀ a, ¬ path g a a.

(** The keys of all nodes of a graph, as a set. *)
Definition node_keys (g : graph) : gset K :=
  list_to_set (map key (graph_nodes g)).

(** Invariant of the validator: the nodes that were visited and are no
    longer on the stack have all their targets among themselves and lie on
    no cycle. *)
Definition finished_ok (g : graph) (visited stack : gset K) : Prop :=
  ∀ a, a ∈ visited → a ∉ stack →
    (∀ b, edge g a b → b ∈ visited ∧ b ∉ stack) ∧ ¬ path g a a.

(** [d'] has the entries of [d], each list possibly longer. *)
Definition od_extends (d d' : odict (list N)) : Prop :=
  ∀ k ps, od_get d k = Some ps → ∃ ps', od_get d' k = Some (ps ++ ps').

(** The keys of the graph's entries, as a set. *)
Definition graph_keys (g : graph) : gset K :=
  list_to_set (map key (od_keys g)).

(** Invariant of the parental map: its keys are nodes of the graph, and
    every listed parent is a parent in the graph and has an entry itself. *)
Definition pm_sound (g : graph) (pm : odict (list N)) : Prop :=
  ∀ k ps, od_get pm k = Some ps →
    k ∈ node_keys g
    ∧ ∀ p, p ∈ ps → edge g (key p) k ∧ is_Some (od_get pm (key p)).

(** All edges leaving [a] are in the parental map. *)
Definition recorded (g : graph) (pm : odict (list N)) (a : K) : Prop :=
  is_Some (od_get pm a)
  ∧ ∀ b, edge g a b → ∃ ps, od_get pm b = Some ps ∧ a ∈ map key ps.

(** The nodes the consumer was invoked on, in order. *)
Definition call_keys (calls : list (N * list N)) : list K :=
  map (λ c, key (fst c)) calls.

(** Invariant of the traversal: each invocation passes the node's entry of
    the parental map, and each parent of the node was consumed earlier or
    is reachable from the node (which puts both on a cycle). *)
Definition calls_ok (g : graph) (pm : odict (list N))
    (calls : list (N * list N)) : Prop :=
  ∀ i n ps, calls !! i = Some (n, ps) →
    od_get pm (key n) = Some ps
    ∧ ∀ p, p ∈ ps → key p ∈ call_keys (take i calls) ∨ path g (key n) (key p).

(** Feeding recorded invocations to a consumer, in order. *)
Definition replay {C} (consumer : N → list N → C → C)
    (calls : list (N * list N)) (c : C) : C :=
  fold_left (λ c call, consumer (fst call) (snd call) c) calls c.

(** Every node of [order] comes after all of its parents in [g]. *)
Definition parents_first (g : graph) (order : list N) : Prop :=
  ∀ l1 n l2, order = l1 ++ n :: l2 →
    ∀ p, edge g p (key n) → p ∈ map key l1.

(** [a] comes before [b] in [l] (some occurrence of [a] precedes one of [b]). *)
Definition before (a b : K) (l : list N) : Prop :=
  ∃ l1 l2, l = l1 ++ l2 ∧ a ∈ map key l1 ∧ b ∈ map key l2.

End Graph.

(** ** Example graphs, their nodes named by strings *)

(** A string node is its own identity. *)
Definition string_key (s : string) : string := s.

(** [{A: [B, C], B: [D], C: [D]}] *)
Definition diamond : graph (N:=string) :=
  [("A", ["B"; "C"]); ("B", ["D"]); ("C", ["D"])]%string.

(** [{A: [B], B: [A]}] *)
Definition two_cycle : graph (N:=string) :=
  [("A", ["B"]); ("B", ["A"])]%string.

(** ** Timestamps

    A naive [datetime] is its date, held as the proleptic Gregorian ordinal
    that [toordinal()] returns, and its time-of-day fields.  A [timedelta]
    is normalised the way Python's constructor does it. *)

Record timedelta : Type := {
  days : Z;
  seconds : Z;
  microseconds : Z;
}.

(** [timedelta(days=, seconds=, microseconds=)]: carries are pushed up so
    that [0 <= seconds < 86400] and [0 <= microseconds < 1000000]. *)
Definition timedelta_new (d s us : Z) : timedelta :=
  let s := (s + us / 1000000)%Z in
  {| days := (d + s / 86400)%Z;
     seconds := (s mod 86400)%Z;
     microseconds := (us mod 1000000)%Z |}.

(** [-td] *)
Definition timedelta_neg (td : timedelta) : timedelta :=
  timedelta_new (- days td) (- seconds td) (- microseconds td).

Record datetime : Type := {
  toordinal : Z;
  hour : Z;
  minute : Z;
  second : Z;
  microsecond : Z;
}.

Definition _MAXORDINAL : Z := 3652059.

(** [datetime.__add__(self, other: timedelta)] *)
Definition datetime_add (self : datetime) (other : timedelta)
  : result PyExn datetime :=
  let delta :=
    timedelta_new (toordinal self + days other)
      (hour self * 3600 + minute self * 60 + second self + seconds other)
      (microsecond self + microseconds other) in
  let hour := (seconds delta / 3600)%Z in
  let rem := (seconds delta mod 3600)%Z in
  let minute := (rem / 60)%Z in
  let second := (rem mod 60)%Z in
  if decide (0 < days delta ≤ _MAXORDINAL)%Z then
    Return {| toordinal := days delta; hour := hour; minute := minute;
              second := second; microsecond := microseconds delta |}
  else Raise OverflowError.

(** [datetime.__sub__(self, other: timedelta)] is [self + -other]. *)
Definition datetime_sub (self : datetime) (other : timedelta)
  : result PyExn datetime :=
  datetime_add self (timedelta_neg other).

(** [get_timezone_offset_seconds()]: the [.seconds] field of the local
    zone's [utcoffset(None)].  [utcoffset] is that offset in seconds east of
    UTC, as the environment reports it. *)
Definition get_timezone_offset_seconds (utcoffset : Z) : Z :=
  seconds (timedelta_new 0 utcoffset 0).

Definition hourly_start_time (utcoffset : Z) (start_time : datetime)
  : result PyExn datetime :=
  let td := timedelta_new 0 (get_timezone_offset_seconds utcoffset) 0 in
  datetime_sub
    {| toordinal := toordinal start_time; hour := hour start_time;
       minute := minute start_time; second := second start_time;
       microsecond := 0 |}
    td.

Definition daily_start_time (start_time : datetime) : result PyExn datetime :=
  let td := timedelta_new 0 (24 * 3600) 0 in
  datetime_sub
    {| toordinal := toordinal start_time; hour := 0; minute := 0; second := 0;
       microsecond := 0 |}
    td.

(** Position of a timestamp on the time line, in microseconds. *)
Definition to_microseconds (d : datetime) : Z :=
  ((toordinal d * 86400 + hour d * 3600 + minute d * 60 + second d) * 1000000
   + microsecond d)%Z.

(** The field ranges every [datetime] object satisfies. *)
Definition valid_datetime (d : datetime) : Prop :=
  (1 ≤ toordinal d ≤ _MAXORDINAL ∧ 0 ≤ hour d < 24 ∧ 0 ≤ minute d < 60
   ∧ 0 ≤ second d < 60 ∧ 0 ≤ microsecond d < 1000000)%Z.

(** The helpers as the specification words them: truncate to the hour
    (to the day) and subtract the local UTC offset. *)
Definition spec_hourly_start_time (utcoffset : Z) (start_time : datetime)
  : result PyExn datetime :=
  datetime_sub
    {| toordinal := toordinal start_time; hour := hour start_time;
       minute := 0; second := 0; microsecond := 0 |}
    (timedelta_new 0 utcoffset 0).

Definition spec_daily_start_time (utcoffset : Z) (start_time : datetime)
  : result PyExn datetime :=
  datetime_sub
    {| toordinal := toordinal start_time; hour := 0; minute := 0; second := 0;
       microsecond := 0 |}
    (timedelta_new 0 utcoffset 0).

(** ** Jobs, workflow jobs and contexts *)

(** [WorkflowJob.name]: the position in the job list ([enumerate]) or the
    wrapped job's [id]. *)
Inductive Name : Type :=
| IndexName (i : nat)
| IdName (s : string).

#[global] Instance Name_eq_dec : EqDecision Name.
Proof. solve_decision. Defined.

#[global] Instance Name_countable : Countable Name :=
  inj_countable'
    (λ n, match n with IndexName i => inl i | IdName s => inr s end)
    (λ x, match x with inl i => IndexName i | inr s => IdName s end)
    (λ n, match n with IndexName _ => eq_refl | IdName _ => eq_refl end).

(** What a node of a job graph is hashed and compared by: the [name] of a
    [WorkflowJob], or, for any other object, the object itself (Python's
    default [__hash__] and [__eq__]), held as its address.  A name and an
    address are never taken for one another. *)
Inductive NodeKey : Type :=
| NameKey (n : Name)
| AddressKey (a : nat).

#[global] Instance NodeKey_eq_dec : EqDecision NodeKey.
Proof. solve_decision. Defined.

#[global] Instance NodeKey_countable : Countable NodeKey :=
  inj_countable'
    (λ k, match k with NameKey n => inl n | AddressKey a => inr a end)
    (λ x, match x with inl n => NameKey n | inr a => AddressKey a end)
    (λ k, match k with NameKey _ => eq_refl | AddressKey _ => eq_refl end).

(** [JobContext]; [workflow] is the back-reference to the owning workflow,
    held as its [workflow_id]. *)
Record JobContext : Type := {
  runtime : datetime;
  runtime_as_str : string;
  workflow : string;
}.

(** What [Workflow.run] may be given for [runtime]. *)
Inductive RuntimeArg : Type :=
| RuntimeNone
| RuntimeStr (s : string)
| RuntimeDatetime (d : datetime).

Section Workflow.
(** Whatever the jobs act on. *)
Context {World : Type}.
(** [datetime.strptime(s, format)], [None] when it raises ValueError, and
    [d.strftime(format)]. *)
Variable strptime : string → string → option datetime.
Variable strftime : datetime → string → string.

(** A job object: its [id] and, when it has one, its [execute] method,
    which acts on the world and may raise. *)
Record Job : Type := {
  id : string;
  execute : option (JobContext → World → World * option PyExn);
}.

Record WorkflowJob : Type := {
  job : Job;
  name : Name;
}.

(** The objects handed to [_execute_job]. [WorkflowJob] defines [run],
    [__hash__], [__eq__] and [__repr__], and no [execute]. *)
Inductive PyObject : Type :=
| JobObject (j : Job)
| WorkflowJobObject (w : WorkflowJob).

(** [getattr(o, 'execute')] when [hasattr(o, 'execute')] *)
Definition getattr_execute (o : PyObject)
  : option (JobContext → World → World * option PyExn) :=
  match o with
  | JobObject j => execute j
  | WorkflowJobObject _ => None
  end.

(** A node of a job graph.  [Definition] wraps the jobs of a dict, and
    [Workflow] those of a list, into [WorkflowJob]s; a list handed to
    [Definition] directly is put into the graph as it is, so a node may
    also be a job object that is not wrapped.  Such an object is equal to
    itself only: [address] stands for its identity, and [object_str] is
    what [str] gives for it. *)
Inductive Node : Type :=
| Wrapped (w : WorkflowJob)
| Bare (address : nat) (object_str : string) (j : Job).

(** [hash] and [==] on nodes *)
Definition node_key (n : Node) : NodeKey :=
  match n with
  | Wrapped w => NameKey (name w)
  | Bare address _ _ => AddressKey address
  end.

(** The node as the object it is. *)
Definition node_object (n : Node) : PyObject :=
  match n with
  | Wrapped w => WorkflowJobObject w
  | Bare _ _ j => JobObject j
  end.

(** An element of the input dict of [Definition]: a job or an already
    wrapped one. *)
Inductive JobLike : Type :=
| AJob (j : Job)
| AWorkflowJob (w : WorkflowJob).

(** [Definition._map_to_workflow_job] *)
Definition _map_to_workflow_job (j : JobLike) : WorkflowJob :=
  match j with
  | AWorkflowJob w => w
  | AJob j => {| job := j; name := IdName (id j) |}
  end.

(** [Workflow._map_to_workflow_jobs] *)
Definition _map_to_workflow_jobs (job_list : list Job) : list WorkflowJob :=
  imap (λ i job, {| job := job; name := IndexName i |}) job_list.

(** The argument of [Definition(...)]: a list of objects, wrapped or not,
    or the items of a dict. *)
Inductive DefinitionArg : Type :=
| JobsList (l : list Node)
| JobsDict (items : list (JobLike * list JobLike)).

Record Definition_ : Type := {
  definition_job_graph : graph (N:=Node);
  job_order_resolver : JobOrderResolver (N:=Node);
}.

(** [repr(WorkflowJob)] *)
Definition WorkflowJob_repr (w : WorkflowJob) : string :=
  ("WorkflowJob{job=..., name="
   +:+ match name w with IndexName i => pretty i | IdName s => s end
   +:+ "}")%string.

(** [str(node)], as the f-string of [_validate_job] renders it. *)
Definition Node_str (n : Node) : string :=
  match n with
  | Wrapped w => WorkflowJob_repr w
  | Bare _ object_str _ => object_str
  end.

(** [Definition._build_graph] *)
Definition _build_graph (jobs : DefinitionArg)
  : result PyExn (graph (N:=Node)) :=
  let job_graph :=
    match jobs with
    | JobsList l => _convert_list_to_graph node_key l
    | JobsDict items =>
        fold_left
          (λ d '(source_job, target_jobs),
             od_set node_key d (Wrapped (_map_to_workflow_job source_job))
               (map (λ tj, Wrapped (_map_to_workflow_job tj)) target_jobs))
          items []
    end in
  match validate node_key job_graph with
  | Return _ => Return job_graph
  | Raise (Found_cyclic_dependency_on_job job) =>
      Raise (InvalidJobGraphError
               ("Found cyclic dependency on job " +:+ Node_str job))
  | OutOfFuel => OutOfFuel
  end.

(** [Definition.__init__] *)
Definition Definition_init (jobs : DefinitionArg) : result PyExn Definition_ :=
  bind (_build_graph jobs) (λ job_graph,
  bind (JobOrderResolver_init node_key job_graph) (λ resolver,
  Return {| definition_job_graph := job_graph;
            job_order_resolver := resolver |})).

Definition sequential_order (self : Definition_)
  : result PyExn (list Node) :=
  find_sequential_run_order node_key (job_order_resolver self).

Record Workflow : Type := {
  workflow_id : string;
  definition : Definition_;
  schedule_interval : string;
}.

(** The [definition] argument of [Workflow(...)]. *)
Inductive WorkflowArg : Type :=
| JobList (l : list Job)
| ADefinition (d : Definition_).

(** [Workflow._parse_definition] *)
Definition _parse_definition (arg : WorkflowArg) : result PyExn Definition_ :=
  match arg with
  | JobList l => Definition_init (JobsList (map Wrapped (_map_to_workflow_jobs l)))
  | ADefinition d => Return d
  end.

Definition DEFAULT_SCHEDULE_INTERVAL : string := "@daily".

(** [Workflow.__init__] *)
Definition Workflow_init (workflow_id : string) (arg : WorkflowArg)
    (schedule_interval : string) : result PyExn Workflow :=
  bind (_parse_definition arg) (λ d,
  Return {| workflow_id := workflow_id; definition := d;
            schedule_interval := schedule_interval |}).

Definition RUNTIME_FORMATS : list string :=
  ["%Y-%m-%d %H:%M:%S"; "%Y-%m-%d"]%string.

(** [Workflow._parse_runtime_str]: the [raise] after the loop formats its
    message with [rt], a name bound nowhere, so evaluating it raises
    NameError. *)
Definition _parse_runtime_str (runtime : string) : result PyExn datetime :=
  (fix loop (formats : list string) : result PyExn datetime :=
     match formats with
     | [] => Raise (NameError "rt")
     | format :: formats =>
         match strptime runtime format with
         | Some d => Return d
         | None => loop formats
         end
     end) RUNTIME_FORMATS.

(** [Workflow._make_job_context]; [now] is what [dt.datetime.now()]
    returns when it is read. *)
Definition _make_job_context (self : Workflow) (now : datetime)
    (runtime_raw : RuntimeArg) : result PyExn JobContext :=
  match runtime_raw with
  | RuntimeStr s =>
      let runtime_as_str := s in
      bind (_parse_runtime_str s) (λ runtime,
      Return {| workflow := workflow_id self; runtime := runtime;
                runtime_as_str := runtime_as_str |})
  | _ =>
      let runtime :=
        match runtime_raw with RuntimeDatetime d => d | _ => now end in
      let runtime_as_str := strftime runtime (default ""%string (RUNTIME_FORMATS !! 0)) in
      Return {| workflow := workflow_id self; runtime := runtime;
                runtime_as_str := runtime_as_str |}
  end.

(** A call acting on the world: the world it leaves and how it ended. *)
Definition action (A : Type) : Type := World → World * result PyExn A.

(** [Workflow._execute_job]; logging is left out. *)
Definition _execute_job (job : PyObject) (context : JobContext) : action unit :=
  λ w,
    match getattr_execute job with
    | Some execute =>
        match execute context w with
        | (w', None) => (w', Return tt)
        | (w', Some e) => (w', Raise e)
        end
    | None => (w, Raise (Exception "XXX"))
    end.

Definition build_sequential_order (self : Workflow)
  : result PyExn (list Node) :=
  sequential_order (definition self).

(** The loop of [Workflow.run]: [for job in order: self._execute_job(job,
    context)], the loop variable being the node of the graph itself. *)
Fixpoint run_loop (order : list Node) (context : JobContext)
  : action unit :=
  λ w,
    match order with
    | [] => (w, Return tt)
    | job :: order =>
        match _execute_job (node_object job) context w with
        | (w', Return _) => run_loop order context w'
        | (w', Raise e) => (w', Raise e)
        | (w', OutOfFuel) => (w', OutOfFuel)
        end
    end.

(** [Workflow.run] *)
Definition run (self : Workflow) (now : datetime) (runtime : RuntimeArg)
  : action unit :=
  λ w,
    match _make_job_context self now runtime with
    | Return context =>
        match build_sequential_order self with
        | Return order => run_loop order context w
        | Raise e => (w, Raise e)
        | OutOfFuel => (w, OutOfFuel)
        end
    | Raise e => (w, Raise e)
    | OutOfFuel => (w, OutOfFuel)
    end.

(** A workflow whose definition came out of [Definition.__init__]. *)
Definition constructed (self : Workflow) : Prop :=
  ∃ jobs, Definition_init jobs = Return (definition self).

(** [Workflow.find_job]; [job_wrapper.job] on a node that is not a
    [WorkflowJob] raises AttributeError. *)
Definition find_job (self : Workflow) (job_id : string) : result PyExn Job :=
  bind (build_sequential_order self) (λ order,
    (fix loop (l : list Node) : result PyExn Job :=
       match l with
       | [] => Raise (ValueError ("Job " +:+ job_id +:+ " not found."))
       | Wrapped job_wrapper :: l =>
           if decide (id (job job_wrapper) = job_id) then Return (job job_wrapper)
           else loop l
       | Bare _ _ _ :: _ => Raise (AttributeError "job")
       end) order).

(** [Workflow.run_job] *)
Definition run_job (self : Workflow) (now : datetime) (job_id : string)
    (runtime : RuntimeArg) : action unit :=
  λ w,
    match _make_job_context self now runtime with
    | Return context =>
        match find_job self job_id with
        | Return j => _execute_job (JobObject j) context w
        | Raise e => (w, Raise e)
        | OutOfFuel => (w, OutOfFuel)
        end
    | Raise e => (w, Raise e)
    | OutOfFuel => (w, OutOfFuel)
    end.

End Workflow.

(** ** A model of [strptime] and [strftime] on the two runtime formats

    Used to evaluate the code on concrete inputs.  It covers the canonical
    zero-padded spellings [YYYY-MM-DD HH:MM:SS] and [YYYY-MM-DD]; the
    calendar arithmetic follows CPython's [_ymd2ord] and [_ord2ymd]. *)

Definition _is_leap (year : Z) : bool :=
  ((year mod 4 =? 0) && (negb (year mod 100 =? 0) || (year mod 400 =? 0)))%Z.

Definition _days_before_year (year : Z) : Z :=
  let y := (year - 1)%Z in (y * 365 + y / 4 - y / 100 + y / 400)%Z.

Definition _days_in_month (year month : Z) : Z :=
  if ((month =? 2) && _is_leap year)%Z then 29%Z
  else nth (Z.to_nat month) [0; 31; 28; 31; 30; 31; 30; 31; 31; 30; 31; 30; 31]%Z 0%Z.

Definition _days_before_month (year month : Z) : Z :=
  (nth (Z.to_nat month) [0; 0; 31; 59; 90; 120; 151; 181; 212; 243; 273; 304; 334] 0
   + if (2 <? month) && _is_leap year then 1 else 0)%Z.

Definition _ymd2ord (year month day : Z) : Z :=
  (_days_before_year year + _days_before_month year month + day)%Z.

Definition _ord2ymd (n : Z) : Z * Z * Z :=
  let n := (n - 1)%Z in
  let n400 := (n / 146097)%Z in let n := (n mod 146097)%Z in
  let year := (n400 * 400 + 1)%Z in
  let n100 := (n / 36524)%Z in let n := (n mod 36524)%Z in
  let n4 := (n / 1461)%Z in let n := (n mod 1461)%Z in
  let n1 := (n / 365)%Z in let n := (n mod 365)%Z in
  let year := (year + n100 * 100 + n4 * 4 + n1)%Z in
  if ((n1 =? 4) || (n100 =? 4))%Z then ((year - 1)%Z, 12%Z, 31%Z)
  else
    let leapyear := ((n1 =? 3) && (negb (n4 =? 24) || (n100 =? 3)))%Z in
    let month := Z.shiftr (n + 50) 5 in
    let preceding :=
      (nth (Z.to_nat month) [0; 0; 31; 59; 90; 120; 151; 181; 212; 243; 273; 304; 334] 0
       + if (2 <? month) && leapyear then 1 else 0)%Z in
    if (n <? preceding)%Z then
      let month := (month - 1)%Z in
      let preceding :=
        (preceding
         - (nth (Z.to_nat month) [0; 31; 28; 31; 30; 31; 30; 31; 31; 30; 31; 30; 31] 0
            + if (month =? 2) && leapyear then 1 else 0))%Z in
      (year, month, (n - preceding + 1)%Z)
    else (year, month, (n - preceding + 1)%Z).

Definition digit_of (a : ascii) : option Z :=
  let n := Z.of_nat (nat_of_ascii a) in
  if ((48 <=? n) && (n <=? 57))%Z then Some (n - 48)%Z else None.

(** [count] decimal digits at the head of [s], and the rest of [s] *)
Fixpoint parse_digits (count : nat) (acc : Z) (s : string)
  : option (Z * string) :=
  match count with
  | O => Some (acc, s)
  | S count =>
      match s with
      | String.String a s =>
          match digit_of a with
          | Some d => parse_digits count (acc * 10 + d)%Z s
          | None => None
          end
      | String.EmptyString => None
      end
  end.

Definition expect (c : ascii) (s : string) : option string :=
  match s with
  | String.String a s => if decide (a = c) then Some s else None
  | String.EmptyString => None
  end.

Definition parse_date (s : string) : option (Z * string) :=
  '(year, s) ← parse_digits 4 0 s; s ← expect "-" s;
  '(month, s) ← parse_digits 2 0 s; s ← expect "-" s;
  '(day, s) ← parse_digits 2 0 s;
  if ((1 <=? year) && (1 <=? month) && (month <=? 12) && (1 <=? day)
      && (day <=? _days_in_month year month))%Z
  then Some (_ymd2ord year month day, s) else None.

Definition parse_time (s : string) : option (Z * Z * Z * string) :=
  '(h, s) ← parse_digits 2 0 s; s ← expect ":" s;
  '(m, s) ← parse_digits 2 0 s; s ← expect ":" s;
  '(sec, s) ← parse_digits 2 0 s;
  if ((h <=? 23) && (m <=? 59) && (sec <=? 59))%Z then Some (h, m, sec, s)
  else None.

Definition model_strptime (s format : string) : option datetime :=
  if decide (format = "%Y-%m-%d %H:%M:%S"%string) then
    '(ord, s) ← parse_date s; s ← expect " " s;
    '(h, m, sec, s) ← parse_time s;
    if decide (s = ""%string) then
      Some {| toordinal := ord; hour := h; minute := m; second := sec;
              microsecond := 0 |}
    else None
  else if decide (format = "%Y-%m-%d"%string) then
    '(ord, s) ← parse_date s;
    if decide (s = ""%string) then
      Some {| toordinal := ord; hour := 0; minute := 0; second := 0;
              microsecond := 0 |}
    else None
  else None.

Definition pad2 (n : Z) : string :=
  if (n <? 10)%Z then ("0" +:+ pretty n)%string else pretty n.

Definition pad4 (n : Z) : string :=
  if (n <? 10)%Z then ("000" +:+ pretty n)%string
  else if (n <? 100)%Z then ("00" +:+ pretty n)%string
  else if (n <? 1000)%Z then ("0" +:+ pretty n)%string
  else pretty n.

Definition format_date (d : datetime) : string :=
  let '(year, month, day) := _ord2ymd (toordinal d) in
  (pad4 year +:+ "-" +:+ pad2 month +:+ "-" +:+ pad2 day)%string.

Definition model_strftime (d : datetime) (format : string) : string :=
  if decide (format = "%Y-%m-%d %H:%M:%S"%string) then
    (format_date d +:+ " " +:+ pad2 (hour d) +:+ ":" +:+ pad2 (minute d)
     +:+ ":" +:+ pad2 (second d))%string
  else if decide (format = "%Y-%m-%d"%string) then format_date d
  else ""%string.

(** ** Example jobs and workflows, acting on a log of job names *)

(** A job whose [execute] appends its name to the log. *)
Definition logging_job (name : string) : Job (World:=list string) :=
  {| id := name; execute := Some (λ _ log, (log ++ [name], None)) |}.

(** A job whose [execute] appends its name to the log and raises [e]. *)
Definition failing_job (name : string) (e : PyExn) : Job (World:=list string) :=
  {| id := name; execute := Some (λ _ log, (log ++ [name], Some e)) |}.

(** An object of the old job API: an [id] and [run], no [execute]. *)
Definition legacy_job (name : string) : Job (World:=list string) :=
  {| id := name; execute := None |}.

(** 2020-06-27 15:30:45 *)
Definition example_now : datetime :=
  {| toordinal := 737603; hour := 15; minute := 30; second := 45;
     microsecond := 0 |}.

(** The workflow [Workflow('example', [])]. *)
Definition example_workflow : Workflow (World:=list string) :=
  {| workflow_id := "example";
     definition :=
       {| definition_job_graph := [];
          job_order_resolver := {| job_graph := []; parental_map := [] |} |};
     schedule_interval := DEFAULT_SCHEDULE_INTERVAL |}.

(** ** Further notions used to state properties of the graph code *)

Section GraphObjects.
Context {N K : Type} `{Countable K}.
Variable key : N → K.

(** Every key object of [d] and every object listed in [d] is one of
    [objs]. *)
Definition od_objects_in (objs : list N) (d : odict (N:=N) (list N)) : Prop :=
  Forall (λ e, fst e ∈ objs ∧ Forall (λ p, p ∈ objs) (snd e)) d.

(** The entry a dict built by successive assignments holds for [k]: the
    value of the last assignment whose key has identity [k]. *)
Definition last_assigned {V} (items : list (N * V)) (k : K) : option V :=
  snd <$> find (λ item, bool_decide (key (fst item) = k)) (rev items).

End GraphObjects.

Section WorkflowMore.
Context {World : Type}.

(** The graph [Definition._build_graph] assembles before validating it. *)
Definition assembled_graph (jobs : DefinitionArg (World:=World))
  : graph (N:=Node (World:=World)) :=
  match jobs with
  | JobsList l => _convert_list_to_graph node_key l
  | JobsDict items =>
      fold_left
        (λ d '(source_job, target_jobs),
           od_set node_key d (Wrapped (_map_to_workflow_job source_job))
             (map (λ tj, Wrapped (_map_to_workflow_job tj)) target_jobs))
        items []
  end.

(** [Definition.call_on_graph_nodes] *)
Definition Definition_call_on_graph_nodes {C} (self : Definition_ (World:=World))
    (consumer : Node (World:=World) → list Node → C → C) (c : C)
  : result PyExn C :=
  call_on_graph_nodes node_key (job_order_resolver self) consumer c.

(** [Workflow.call_on_graph_nodes] *)
Definition Workflow_call_on_graph_nodes {C} (self : Workflow (World:=World))
    (consumer : Node (World:=World) → list Node → C → C) (c : C)
  : result PyExn C :=
  Definition_call_on_graph_nodes (definition self) consumer c.

(** Where the scan of [Workflow.find_job] stops: at a node that is not a
    [WorkflowJob], or at one that wraps a job of the given id. *)
Definition find_job_stops (job_id : string) (n : Node (World:=World)) : bool :=
  match n with
  | Wrapped job_wrapper => bool_decide (id (job job_wrapper) = job_id)
  | Bare _ _ _ => true
  end.

(** A [Definition] argument all of whose nodes become [WorkflowJob]s: a
    dict, or a list of [WorkflowJob]s, as [Workflow] makes of a job list. *)
Definition wraps_all (jobs : DefinitionArg (World:=World)) : Prop :=
  match jobs with
  | JobsDict _ => True
  | JobsList l => Forall (λ n, ∃ w, n = Wrapped w) l
  end.

(** The world a node's [execute] leaves, for a node that has one. *)
Definition node_effect (context : JobContext) (n : Node (World:=World))
    (w : World) : World :=
  match getattr_execute (node_object n) with
  | Some execute => fst (execute context w)
  | None => w
  end.

End WorkflowMore.

(** * Properties *)

Set Warnings "-clear-no-such-hyp".

(** ** Loops *)

(** A loop invariant indexed by the elements already processed. *)
Lemma for_each_ind {E A S} (body : A → S → result E S)
    (I : list A → S → Prop) (Q : E → Prop) (l : list A) (s : S) :
  I [] s →
  (∀ done x s, I done s → x ∈ l →
     match body x s with
     | Return s' => I (done ++ [x]) s'
     | Raise e => Q e
     | OutOfFuel => False
     end) →
  match for_each body l s with
  | Return s' => I l s'
  | Raise e => Q e
  | OutOfFuel => False
  end.
Proof.
  intros Hinit Hstep.
  assert (Hgen : ∀ rest done s, I done s → (∀ x, x ∈ rest → x ∈ l) →
            match for_each body rest s with
            | Return s' => I (done ++ rest) s'
            | Raise e => Q e
            | OutOfFuel => False
            end).
  { induction rest as [|x rest IH]; intros done s0 HI Hsub; simpl.
    - by rewrite app_nil_r.
    - specialize (Hstep done x s0 HI (Hsub x (list_elem_of_here _ _))).
      destruct (body x s0) as [s1| |]; simpl; try done.
      replace (done ++ x :: rest) with ((done ++ [x]) ++ rest)
        by (by rewrite <- app_assoc).
      apply IH; [done|]. intros y Hy. apply Hsub. by apply list_elem_of_further. }
  apply (Hgen l [] s); auto.
Qed.

Lemma for_each_rel {E A S1 S2} (R : S1 → S2 → Prop)
    (body1 : A → S1 → result E S1) (body2 : A → S2 → result E S2) (l : list A) :
  (∀ x s1 s2, x ∈ l → R s1 s2 → result_rel R (body1 x s1) (body2 x s2)) →
  ∀ s1 s2, R s1 s2 → result_rel R (for_each body1 l s1) (for_each body2 l s2).
Proof.
  induction l as [|x l IH]; intros Hbody s1 s2 HR; simpl; [done|].
  assert (Hx := Hbody x s1 s2 (list_elem_of_here _ _) HR).
  destruct (body1 x s1) as [a1|e1|], (body2 x s2) as [a2|e2|]; simpl in *;
    try done.
  apply IH; [|done]. intros y t1 t2 Hy. apply Hbody. by apply list_elem_of_further.
Qed.

Section GraphFacts.
Context {N K : Type} `{Countable K}.
Variable key : N → K.

(** ** Dictionary lookups *)

Lemma od_get_Some_key {V} (d : odict V) k v :
  od_get key d k = Some v → ∃ n, n ∈ od_keys d ∧ key n = k.
Proof.
  induction d as [|[n w] d IH]; simpl; [done|].
  destruct (decide (key n = k)) as [Heq|Hne].
  - intros _. exists n. split; [left | done].
  - intros Hget. destruct (IH Hget) as (m & Hm & Hk).
    exists m. split; [by right | done].
Qed.

Lemma od_keys_get {V} (d : odict V) n :
  n ∈ od_keys d → is_Some (od_get key d (key n)).
Proof.
  induction d as [|[m w] d IH]; simpl.
  - by intros ?%elem_of_nil.
  - intros Hin. destruct (decide (key m = key n)); [by eexists|].
    apply IH. apply elem_of_cons in Hin as [->|]; [done|done].
Qed.

Lemma node_keys_key (g : graph (N:=N)) n :
  n ∈ od_keys g → key n ∈ node_keys key g.
Proof.
  intros Hin. unfold node_keys, graph_nodes. apply elem_of_list_to_set.
  rewrite map_app. apply elem_of_app. left.
  apply list_elem_of_fmap. by exists n.
Qed.

Lemma edge_source_key (g : graph (N:=N)) a b :
  edge key g a b → ∃ n, n ∈ od_keys g ∧ key n = a.
Proof. intros (deps & Hget & _). by eapply od_get_Some_key. Qed.

Lemma edge_node_keys (g : graph (N:=N)) a b :
  edge key g a b → a ∈ node_keys key g ∧ b ∈ node_keys key g.
Proof.
  intros Hedge. destruct (edge_source_key _ _ _ Hedge) as (n & Hn & <-).
  split; [by apply node_keys_key|].
  destruct Hedge as (deps & Hget & Hb).
  unfold node_keys, graph_nodes. apply elem_of_list_to_set.
  rewrite map_app. apply elem_of_app. right.
  apply list_elem_of_fmap in Hb as (d & -> & Hd).
  apply list_elem_of_fmap. exists d. split; [done|].
  apply list_elem_of_bind. exists n. by rewrite Hget.
Qed.

Lemma path_first_edge (g : graph (N:=N)) a c :
  path key g a c → ∃ b, edge key g a b ∧ (b = c ∨ path key g b c).
Proof. intros Hp. inversion Hp; subst; eauto. Qed.

Lemma path_edge_r (g : graph (N:=N)) a b c :
  path key g a b → edge key g b c → path key g a c.
Proof. intros Hp He. eapply tc_r; eauto. Qed.

Lemma size_difference_lt (U v v' : gset K) k :
  k ∈ U → k ∉ v → {[k]} ∪ v ⊆ v' → size (U ∖ v') < size (U ∖ v).
Proof.
  intros HU Hv Hsub. apply subset_size. split; [set_solver|].
  intros Hback. assert (k ∈ U ∖ v') by set_solver. set_solver.
Qed.

Lemma size_list_to_set_le (l : list K) :
  size (list_to_set l : gset K) ≤ length l.
Proof.
  induction l as [|x l IH].
  - rewrite list_to_set_nil, size_empty. simpl. lia.
  - rewrite list_to_set_cons, size_union_alt, size_singleton. simpl.
    assert (size (list_to_set l ∖ {[x]} : gset K) ≤ size (list_to_set l : gset K))
      by (apply subseteq_size; set_solver).
    lia.
Qed.

Lemma node_keys_size (g : graph (N:=N)) (visited : gset K) :
  size (node_keys key g ∖ visited) ≤ length (graph_nodes key g).
Proof.
  etrans; [apply (subseteq_size _ (node_keys key g)); set_solver|].
  unfold node_keys. etrans; [apply size_list_to_set_le|]. by rewrite length_map.
Qed.

(** Entering a node that was not visited uses up one unit of fuel. *)
Ltac spend_fuel k :=
  match goal with
  | Hfuel : size (?U ∖ ?visited) < S ?fuel |- size (?U ∖ ?v) < ?fuel =>
      assert (size (U ∖ v) < size (U ∖ visited))
        by (by apply (size_difference_lt _ _ _ k));
      lia
  end.

(** ** JobGraphValidator *)

Section Validator.
Variable g : graph (N:=N).

Lemma finished_ok_path visited stack a b :
  finished_ok key g visited stack → a ∈ visited → a ∉ stack →
  path key g a b → b ∈ visited ∧ b ∉ stack.
Proof.
  intros Hok Ha Hs Hp. induction Hp as [x y He|x y z He Hp IH].
  - by apply (Hok x).
  - destruct (Hok x Ha Hs) as [Hcl _]. destruct (Hcl y He). by apply IH.
Qed.

Lemma finished_ok_push visited stack k :
  k ∉ visited → finished_ok key g visited stack →
  finished_ok key g ({[k]} ∪ visited) ({[k]} ∪ stack).
Proof.
  intros Hk Hok a Ha Has.
  assert (a ∈ visited) as Hav by set_solver.
  assert (a ∉ stack) as Has' by set_solver.
  destruct (Hok a Hav Has') as [Hcl Hc]. split; [|done].
  intros b Hb. destruct (Hcl b Hb). set_solver.
Qed.

Lemma finished_ok_leaf visited stack k :
  od_get key g k = None → finished_ok key g visited stack →
  finished_ok key g ({[k]} ∪ visited) stack.
Proof.
  intros Hget Hok a Ha Has. destruct (decide (a = k)) as [->|Hne].
  - split.
    + intros b (deps & Hd & _). congruence.
    + intros Hp. apply path_first_edge in Hp as (b & (deps & Hd & _) & _).
      congruence.
  - assert (a ∈ visited) as Hav by set_solver.
    destruct (Hok a Hav Has) as [Hcl Hc]. split; [|done].
    intros b Hb. destruct (Hcl b Hb). set_solver.
Qed.

Lemma finished_ok_pop visited stack k :
  k ∉ stack → k ∈ visited →
  (∀ b, edge key g k b → b ∈ visited ∧ b ∉ {[k]} ∪ stack) →
  finished_ok key g visited ({[k]} ∪ stack) →
  finished_ok key g visited stack.
Proof.
  intros Hks Hkv Hdeps Hok a Ha Has. destruct (decide (a = k)) as [->|Hne].
  - split.
    + intros b Hb. destruct (Hdeps b Hb). set_solver.
    + intros Hcyc. apply path_first_edge in Hcyc as (b & Hb & Hrest).
      destruct (Hdeps b Hb) as [Hbv Hbs].
      destruct Hrest as [->|Hp]; [set_solver|].
      destruct (finished_ok_path _ _ _ _ Hok Hbv Hbs Hp). set_solver.
  - assert (Has1 : a ∉ {[k]} ∪ stack) by set_solver.
    destruct (Hok a Ha Has1) as [Hcl Hc]. split; [|done].
    intros b Hb. destruct (Hcl b Hb). set_solver.
Qed.

Lemma _validate_job_spec fuel : ∀ job visited stack,
  key job ∈ node_keys key g →
  size (node_keys key g ∖ visited) < fuel →
  (∀ s, s ∈ stack → path key g s (key job)) →
  finished_ok key g visited stack →
  match _validate_job key fuel g job (visited, stack) with
  | Return (visited', stack') =>
      stack' = stack ∧ visited ⊆ visited' ∧ key job ∈ visited'
      ∧ (key job ∉ stack) ∧ finished_ok key g visited' stack
  | Raise (Found_cyclic_dependency_on_job j) => path key g (key j) (key j)
  | OutOfFuel => False
  end.
Proof.
  induction fuel as [|fuel IH]; intros job visited stack HU Hfuel Hstack Hok;
    [lia|].
  simpl. destruct (decide (key job ∈ stack)) as [Hin|Hnin]; [by apply Hstack|].
  destruct (decide (key job ∈ visited)) as [Hvis|Hnvis]; [done|].
  destruct (od_get key g (key job)) as [deps|] eqn:Hget.
  2:{ split; [done|]. split; [set_solver|]. split; [set_solver|].
      split; [done|]. by apply finished_ok_leaf. }
  set (visited1 := {[key job]} ∪ visited).
  set (stack1 := {[key job]} ∪ stack).
  pose (I := λ (done : list N) (st : gset K * gset K),
          snd st = stack1 ∧ visited1 ⊆ fst st ∧ finished_ok key g (fst st) stack1
          ∧ ∀ d, d ∈ done → key d ∈ fst st ∧ key d ∉ stack1).
  pose (Q := λ (e : InvalidJobGraph (N:=N)),
          match e with
          | Found_cyclic_dependency_on_job j => path key g (key j) (key j)
          end).
  assert (Hloop : match for_each (_validate_job key fuel g) deps
                          (visited1, stack1) with
                  | Return st => I deps st
                  | Raise e => Q e
                  | OutOfFuel => False
                  end).
  { apply for_each_ind.
    - unfold I; simpl. split; [done|]. split; [done|].
      split; [by apply finished_ok_push|]. by intros d ?%elem_of_nil.
    - intros done x [v s] (Hs & Hv & Hok' & Hdone) Hx. simpl in *. subst s.
      assert (Hedge : edge key g (key job) (key x)).
      { exists deps. split; [done|]. apply list_elem_of_fmap. by exists x. }
      assert (Hnode : key x ∈ node_keys key g)
        by (by apply (edge_node_keys _ _ _ Hedge)).
      assert (Hfuel' : size (node_keys key g ∖ v) < fuel)
        by (spend_fuel (key job)).
      assert (Hstack' : ∀ s, s ∈ stack1 → path key g s (key x)).
      { intros s Hs. apply elem_of_union in Hs as [->%elem_of_singleton|Hs].
        - by apply tc_once.
        - eapply path_edge_r; [by apply Hstack|done]. }
      specialize (IH x v stack1 Hnode Hfuel' Hstack' Hok').
      destruct (_validate_job key fuel g x (v, stack1)) as [[v2 s2]|[j]|];
        simpl; [|done|done].
      destruct IH as (-> & Hv2 & Hx2 & Hxs & Hok2).
      unfold I; simpl. split; [done|]. split; [set_solver|]. split; [done|].
      intros d Hd. apply elem_of_app in Hd as [Hd|Hd].
      + destruct (Hdone d Hd). set_solver.
      + apply list_elem_of_singleton in Hd as ->. done. }
  destruct (for_each (_validate_job key fuel g) deps (visited1, stack1))
    as [[v' s']|e|]; simpl; [|by destruct e|done].
  destruct Hloop as (Hs & Hv & Hok' & Hdone). simpl in *. subst s'.
  assert (Hdeps : ∀ b, edge key g (key job) b → b ∈ v' ∧ b ∉ stack1).
  { intros b (deps' & Hget' & Hb). rewrite Hget in Hget'.
    injection Hget' as <-. apply list_elem_of_fmap in Hb as (d & -> & Hd).
    by apply Hdone. }
  split; [unfold stack1; set_solver|].
  split; [set_solver|]. split; [set_solver|]. split; [done|].
  apply (finished_ok_pop _ _ (key job)); [done|set_solver|done|done].
Qed.

Lemma validate_spec :
  match validate key g with
  | Return _ => acyclic key g
  | Raise (Found_cyclic_dependency_on_job j) => path key g (key j) (key j)
  | OutOfFuel => False
  end.
Proof.
  unfold validate, _validate_if_not_cyclic.
  pose (I := λ (done : list N) (st : gset K * gset K),
          snd st = ∅ ∧ finished_ok key g (fst st) ∅
          ∧ ∀ d, d ∈ done → key d ∈ fst st).
  pose (Q := λ (e : InvalidJobGraph (N:=N)),
          match e with
          | Found_cyclic_dependency_on_job j => path key g (key j) (key j)
          end).
  remember (S (length (graph_nodes key g))) as fuel eqn:Hfuel.
  assert (Hloop : match for_each (_validate_job key fuel g) (od_keys g) (∅, ∅) with
                  | Return st => I (od_keys g) st
                  | Raise e => Q e
                  | OutOfFuel => False
                  end).
  { apply for_each_ind.
    - unfold I; simpl. split; [done|]. split; [|by intros d ?%elem_of_nil].
      intros a Ha. set_solver.
    - intros done x [v s] (Hs & Hok & Hdone) Hx. simpl in *. subst s.
      assert (Hfuel' : size (node_keys key g ∖ v) < fuel).
      { pose proof (node_keys_size g v). lia. }
      assert (IHx := _validate_job_spec fuel x v ∅ (node_keys_key g x Hx) Hfuel'
                       ltac:(set_solver) Hok).
      destruct (_validate_job key fuel g x (v, ∅)) as [[v2 s2]|[j]|]; simpl;
        [|done|done].
      destruct IHx as (-> & Hv2 & Hx2 & _ & Hok2).
      unfold I; simpl. split; [done|]. split; [done|].
      intros d Hd. apply elem_of_app in Hd as [Hd|Hd].
      + specialize (Hdone d Hd). set_solver.
      + apply list_elem_of_singleton in Hd as ->. done. }
  destruct (for_each (_validate_job key fuel g) (od_keys g) (∅, ∅))
    as [[v s]|e|]; simpl; [|by destruct e|done].
  destruct Hloop as (Hs & Hok & Hdone). simpl in *.
  intros a Hp. pose proof Hp as Hp'.
  apply path_first_edge in Hp' as (b & Hb & _).
  destruct (edge_source_key _ _ _ Hb) as (n & Hn & <-).
  destruct (Hok (key n)) as [_ Hc]; [by apply Hdone|set_solver|]. done.
Qed.

End Validator.

(** C2.  [JobGraphValidator.validate] completes without raising exactly when
    the graph is acyclic; on a graph with a cycle it raises the
    cyclic-dependency error, and the job the error names lies on a cycle. *)
Theorem validate_iff_acyclic (g : graph (N:=N)) :
  (validate key g = Return tt ↔ acyclic key g)
  ∧ (¬ acyclic key g →
     ∃ j, validate key g = Raise (Found_cyclic_dependency_on_job j)
          ∧ path key g (key j) (key j)).
Proof.
  pose proof (validate_spec g) as Hspec.
  destruct (validate key g) as [[]|[j]|]; [| |done].
  - split; [done|]. intros Hn. exfalso. exact (Hn Hspec).
  - split.
    + split; [done|]. intros Hac. exfalso. exact (Hac (key j) Hspec).
    + intros _. by exists j.
Qed.

(** ** More on dictionaries *)

Lemma od_mem_spec {V} (d : odict V) k :
  od_mem key d k = true ↔ is_Some (od_get key d k).
Proof.
  unfold od_mem. destruct (od_get key d k) as [v|].
  - split; [by eexists|done].
  - split; [done|]. by intros [? ?].
Qed.

Lemma od_get_set {V} (d : odict V) n v k :
  od_get key (od_set key d n v) k
  = if decide (k = key n) then Some v else od_get key d k.
Proof.
  induction d as [|[m w] d IH]; simpl.
  - repeat case_decide; congruence.
  - destruct (decide (key m = key n)) as [Hmn|Hmn]; simpl;
      repeat case_decide; congruence.
Qed.

Lemma od_get_append (d : odict (list N)) k x k' :
  od_get key (od_append key d k x) k'
  = if decide (k' = k) then (λ l, l ++ [x]) <$> od_get key d k
    else od_get key d k'.
Proof.
  induction d as [|[m l] d IH]; simpl.
  - by case_decide.
  - destruct (decide (key m = k)) as [Hmk|Hmk]; simpl;
      repeat case_decide; simpl; congruence.
Qed.

Lemma od_get_keys_iff {V} (d : odict V) k :
  is_Some (od_get key d k) ↔ k ∈ map key (od_keys d).
Proof.
  split.
  - intros [v Hv]. destruct (od_get_Some_key _ _ _ Hv) as (n & Hn & <-).
    apply list_elem_of_fmap. by exists n.
  - intros (n & -> & Hn)%list_elem_of_fmap. by apply od_keys_get.
Qed.

Lemma od_extends_refl d : od_extends key d d.
Proof. intros k ps Hk. exists []. by rewrite app_nil_r. Qed.

Lemma od_extends_trans d1 d2 d3 :
  od_extends key d1 d2 → od_extends key d2 d3 → od_extends key d1 d3.
Proof.
  intros H12 H23 k ps Hk. destruct (H12 k ps Hk) as (ps1 & H1).
  destruct (H23 _ _ H1) as (ps2 & H2). exists (ps1 ++ ps2).
  by rewrite app_assoc.
Qed.

Lemma od_extends_is_Some d d' k :
  od_extends key d d' → is_Some (od_get key d k) → is_Some (od_get key d' k).
Proof. intros Hext [ps Hps]. destruct (Hext k ps Hps) as (? & ->). by eexists. Qed.

Lemma od_ensure_get d n :
  is_Some (od_get key (od_ensure key d n) (key n)).
Proof.
  unfold od_ensure. destruct (od_mem key d (key n)) eqn:Hmem.
  - by apply od_mem_spec.
  - rewrite od_get_set. case_decide; [by eexists|done].
Qed.

Lemma od_ensure_get_cases d n k ps :
  od_get key (od_ensure key d n) k = Some ps →
  od_get key d k = Some ps ∨ (k = key n ∧ ps = []).
Proof.
  unfold od_ensure. destruct (od_mem key d (key n)) eqn:Hmem; [by left|].
  rewrite od_get_set. case_decide; [|by left].
  intros [= <-]. by right.
Qed.

Lemma od_ensure_extends d n : od_extends key d (od_ensure key d n).
Proof.
  unfold od_ensure. destruct (od_mem key d (key n)) eqn:Hmem;
    [apply od_extends_refl|].
  intros k ps Hk. exists []. rewrite app_nil_r, od_get_set.
  case_decide as Hkn; [|done]. subst k.
  assert (od_mem key d (key n) = true) by (apply od_mem_spec; by eexists).
  congruence.
Qed.

Lemma od_append_extends d k x : od_extends key d (od_append key d k x).
Proof.
  intros k' ps Hk'. rewrite od_get_append. case_decide as Hkk.
  - subst k'. rewrite Hk'. simpl. by exists [x].
  - exists []. by rewrite app_nil_r.
Qed.

(** ** JobOrderResolver: the parental map *)

Section ParentalMap.
Variable g : graph (N:=N).

Lemma graph_keys_get k :
  is_Some (od_get key g k) ↔ k ∈ graph_keys key g.
Proof.
  unfold graph_keys. rewrite elem_of_list_to_set. apply od_get_keys_iff.
Qed.

Lemma graph_keys_size (visited : gset K) :
  size (graph_keys key g ∖ visited) ≤ length g.
Proof.
  etrans; [apply (subseteq_size _ (graph_keys key g)); set_solver|].
  unfold graph_keys. etrans; [apply size_list_to_set_le|].
  unfold od_keys. by rewrite !length_map.
Qed.

Lemma recorded_extends pm pm' a :
  od_extends key pm pm' → recorded key g pm a → recorded key g pm' a.
Proof.
  intros Hext [Hsome Hrec]. split; [by eapply od_extends_is_Some|].
  intros b Hb. destruct (Hrec b Hb) as (ps & Hps & Ha).
  destruct (Hext _ _ Hps) as (ps' & Hps'). exists (ps ++ ps'). split; [done|].
  rewrite map_app. apply elem_of_app. by left.
Qed.

Lemma pm_sound_ensure pm n :
  key n ∈ node_keys key g → pm_sound key g pm →
  pm_sound key g (od_ensure key pm n).
Proof.
  intros Hn Hs k ps Hk.
  destruct (od_ensure_get_cases _ _ _ _ Hk) as [Hold|[-> ->]].
  - destruct (Hs k ps Hold) as [Hnode Hps]. split; [done|].
    intros p Hp. destruct (Hps p Hp) as [He Hsome]. split; [done|].
    eapply od_extends_is_Some; [apply od_ensure_extends|done].
  - split; [done|]. by intros p ?%elem_of_nil.
Qed.

Lemma pm_sound_append pm k x :
  edge key g (key x) k → is_Some (od_get key pm (key x)) →
  pm_sound key g pm → pm_sound key g (od_append key pm k x).
Proof.
  intros He Hx Hs k' ps. rewrite od_get_append.
  assert (Hkeep : ∀ p, is_Some (od_get key pm (key p)) →
                       is_Some (od_get key (od_append key pm k x) (key p))).
  { intros p. apply od_extends_is_Some, od_append_extends. }
  case_decide as Hkk.
  - subst k'. destruct (od_get key pm k) as [l|] eqn:Hl; simpl; [|done].
    intros [= <-]. destruct (Hs k l Hl) as [Hnode Hps]. split; [done|].
    intros p Hp. apply elem_of_app in Hp as [Hp|Hp].
    + destruct (Hps p Hp). split; [done|]. by apply Hkeep.
    + apply list_elem_of_singleton in Hp as ->. split; [done|]. by apply Hkeep.
  - intros Hk'. destruct (Hs k' ps Hk') as [Hnode Hps]. split; [done|].
    intros p Hp. destruct (Hps p Hp). split; [done|]. by apply Hkeep.
Qed.

Lemma _fill_parental_map_spec fuel : ∀ job pm visited,
  size (graph_keys key g ∖ visited) < fuel →
  pm_sound key g pm →
  match _fill_parental_map key fuel g job (pm, visited) with
  | Return (pm', visited') =>
      od_extends key pm pm' ∧ visited ⊆ visited' ∧ pm_sound key g pm'
      ∧ (∀ a, a ∈ visited' → a ∉ visited → recorded key g pm' a)
      ∧ (is_Some (od_get key g (key job)) → key job ∈ visited')
  | Raise _ => False
  | OutOfFuel => False
  end.
Proof.
  induction fuel as [|fuel IH]; intros job pm visited Hfuel Hsound; [lia|].
  simpl. destruct (od_get key g (key job)) as [deps|] eqn:Hget.
  2:{ split; [apply od_extends_refl|]. split; [done|]. split; [done|].
      split; [done|]. by intros [? ?]. }
  destruct (decide (key job ∈ visited)) as [Hvis|Hnvis].
  { split; [apply od_extends_refl|]. split; [done|]. split; [done|].
    split; [done|]. done. }
  assert (Hjob_key : key job ∈ graph_keys key g)
    by (apply graph_keys_get; by eexists).
  assert (Hjob_node : key job ∈ node_keys key g).
  { destruct (od_get_Some_key _ _ _ Hget) as (n & Hn & <-).
    by apply node_keys_key. }
  set (visited1 := {[key job]} ∪ visited).
  set (pm1 := od_ensure key pm job).
  set (body := λ dependency '(parental_map, visited),
         _fill_parental_map key fuel g dependency
           (od_append key (od_ensure key parental_map dependency)
              (key dependency) job, visited)).
  pose (I := λ (done : list N) (st : odict (list N) * gset K),
          od_extends key pm1 (fst st) ∧ visited1 ⊆ snd st
          ∧ pm_sound key g (fst st)
          ∧ (∀ a, a ∈ snd st → a ∉ visited1 → recorded key g (fst st) a)
          ∧ (∀ d, d ∈ done →
               ∃ ps, od_get key (fst st) (key d) = Some ps ∧ key job ∈ map key ps)).
  assert (Hloop : match for_each body deps (pm1, visited1) with
                  | Return st => I deps st
                  | Raise e => False
                  | OutOfFuel => False
                  end).
  { apply (for_each_ind body I (λ _, False)).
    - unfold I; simpl. split; [apply od_extends_refl|]. split; [done|].
      split; [by apply pm_sound_ensure|]. split; [set_solver|].
      by intros d ?%elem_of_nil.
    - intros done x [pmi vi] (Hext & Hv & Hs & Hrec & Hdone) Hx. simpl in *.
      assert (Hedge : edge key g (key job) (key x)).
      { exists deps. split; [done|]. apply list_elem_of_fmap. by exists x. }
      set (pma := od_ensure key pmi x).
      set (pmb := od_append key pma (key x) job).
      assert (Hjob_some : is_Some (od_get key pma (key job))).
      { eapply od_extends_is_Some; [apply od_ensure_extends|].
        eapply od_extends_is_Some; [apply Hext|]. apply od_ensure_get. }
      assert (Hsb : pm_sound key g pmb).
      { apply pm_sound_append; [done|done|].
        apply pm_sound_ensure; [by apply (edge_node_keys _ _ _ Hedge)|done]. }
      assert (Hextb : od_extends key pmi pmb).
      { eapply od_extends_trans; [apply od_ensure_extends|apply od_append_extends]. }
      assert (Hxb : ∃ ps, od_get key pmb (key x) = Some ps ∧ key job ∈ map key ps).
      { destruct (od_ensure_get pmi x) as [l Hl]. exists (l ++ [job]).
        unfold pmb, pma. rewrite od_get_append. case_decide; [|done].
        rewrite Hl. split; [done|]. rewrite map_app. apply elem_of_app. right.
        simpl. apply list_elem_of_singleton. done. }
      assert (Hfuel' : size (graph_keys key g ∖ vi) < fuel)
        by (spend_fuel (key job)).
      assert (IHx := IH x pmb vi Hfuel' Hsb).
      destruct (_fill_parental_map key fuel g x (pmb, vi)) as [[pm2 v2]| |];
        [|done|done].
      destruct IHx as (Hext2 & Hv2 & Hs2 & Hrec2 & _).
      unfold I; simpl.
      split; [eapply od_extends_trans; [apply Hext|];
              eapply od_extends_trans; [apply Hextb|done]|].
      split; [set_solver|]. split; [done|]. split.
      + intros a Ha Ha1. destruct (decide (a ∈ vi)) as [Hai|Hai].
        * eapply recorded_extends; [|by apply Hrec].
          eapply od_extends_trans; [apply Hextb|done].
        * by apply Hrec2.
      + intros d Hd. apply elem_of_app in Hd as [Hd|Hd].
        * destruct (Hdone d Hd) as (ps & Hps & Hin).
          destruct (Hextb _ _ Hps) as (ps1 & Hps1).
          destruct (Hext2 _ _ Hps1) as (ps2 & Hps2).
          eexists. split; [done|]. rewrite !map_app.
          apply elem_of_app. left. apply elem_of_app. by left.
        * apply list_elem_of_singleton in Hd as ->.
          destruct Hxb as (ps & Hps & Hin).
          destruct (Hext2 _ _ Hps) as (ps2 & Hps2).
          eexists. split; [done|]. rewrite map_app. apply elem_of_app. by left. }
  fold body.
  destruct (for_each body deps (pm1, visited1)) as [[pm' v']| |]; [|done|done].
  destruct Hloop as (Hext & Hv & Hs & Hrec & Hdone). simpl in *.
  split; [eapply od_extends_trans; [apply od_ensure_extends|done]|].
  split; [set_solver|]. split; [done|]. split; [|set_solver].
  intros a Ha Hna. destruct (decide (a = key job)) as [->|Hne].
  - split.
    + eapply od_extends_is_Some; [apply Hext|]. apply od_ensure_get.
    + intros b (deps' & Hget' & Hb). rewrite Hget in Hget'.
      injection Hget' as <-. apply list_elem_of_fmap in Hb as (d & -> & Hd).
      by apply Hdone.
  - apply Hrec; [done|set_solver].
Qed.

Lemma _build_parental_map_spec :
  ∃ pm, _build_parental_map key g = Return pm
        ∧ pm_sound key g pm
        ∧ ∀ a, a ∈ graph_keys key g → recorded key g pm a.
Proof.
  unfold _build_parental_map.
  remember (S (length g)) as fuel eqn:Hfuel.
  pose (I := λ (done : list N) (st : odict (list N) * gset K),
          pm_sound key g (fst st)
          ∧ (∀ a, a ∈ snd st → recorded key g (fst st) a)
          ∧ (∀ d, d ∈ done → key d ∈ snd st)).
  assert (Hloop : match for_each (_fill_parental_map key fuel g) (od_keys g)
                          ([], ∅) with
                  | Return st => I (od_keys g) st
                  | Raise e => False
                  | OutOfFuel => False
                  end).
  { apply (for_each_ind _ I (λ _, False)).
    - unfold I; simpl. split; [by intros k ps ?|].
      split; [set_solver|]. by intros d ?%elem_of_nil.
    - intros done x [pmi vi] (Hs & Hrec & Hdone) Hx. simpl in *.
      assert (Hfuel' : size (graph_keys key g ∖ vi) < fuel).
      { pose proof (graph_keys_size vi). lia. }
      assert (Hspec := _fill_parental_map_spec fuel x pmi vi Hfuel' Hs).
      destruct (_fill_parental_map key fuel g x (pmi, vi)) as [[pm2 v2]| |];
        [|done|done].
      destruct Hspec as (Hext & Hv & Hs2 & Hrec2 & Hx2).
      unfold I; simpl. split; [done|]. split.
      + intros a Ha. destruct (decide (a ∈ vi)) as [Hai|Hai].
        * eapply recorded_extends; [done|by apply Hrec].
        * by apply Hrec2.
      + intros d Hd. apply elem_of_app in Hd as [Hd|Hd].
        * specialize (Hdone d Hd). set_solver.
        * apply list_elem_of_singleton in Hd as ->. apply Hx2.
          by apply od_keys_get. }
  destruct (for_each (_fill_parental_map key fuel g) (od_keys g) ([], ∅))
    as [[pm v]| |]; [|done|done].
  destruct Hloop as (Hs & Hrec & Hdone). simpl in *.
  exists pm. split; [done|]. split; [done|].
  intros a Ha. apply Hrec. unfold graph_keys in Ha.
  apply elem_of_list_to_set, list_elem_of_fmap in Ha as (n & -> & Hn).
  by apply Hdone.
Qed.

(** What the finished parental map holds. *)
Lemma _build_parental_map_correct :
  ∃ pm, _build_parental_map key g = Return pm
        ∧ (∀ k, is_Some (od_get key pm k) ↔ k ∈ node_keys key g)
        ∧ (∀ k ps, od_get key pm k = Some ps →
             ∀ a, a ∈ map key ps ↔ edge key g a k)
        ∧ (∀ k ps p, od_get key pm k = Some ps → p ∈ ps →
             is_Some (od_get key pm (key p))).
Proof.
  destruct _build_parental_map_spec as (pm & Hbuild & Hs & Hrec).
  exists pm. split; [done|]. split; [|split].
  - intros k. split.
    + intros [ps Hps]. by destruct (Hs k ps Hps).
    + unfold node_keys, graph_nodes. rewrite elem_of_list_to_set, map_app.
      intros [Hk|Hk]%elem_of_app.
      * apply (Hrec k). unfold graph_keys. by apply elem_of_list_to_set.
      * apply list_elem_of_fmap in Hk as (d & -> & Hd).
        apply list_elem_of_bind in Hd as (n & Hd & Hn).
        destruct (od_keys_get g n Hn) as [deps Hdeps].
        rewrite Hdeps in Hd. simpl in Hd.
        destruct (Hrec (key n)) as [_ Hedges].
        { unfold graph_keys. apply elem_of_list_to_set, list_elem_of_fmap.
          by exists n. }
        destruct (Hedges (key d)) as (ps & Hps & _); [|by eexists].
        exists deps. split; [done|]. apply list_elem_of_fmap. by exists d.
  - intros k ps Hps a. split.
    + intros (p & -> & Hp)%list_elem_of_fmap.
      destruct (Hs k ps Hps) as [_ Hpar]. by destruct (Hpar p Hp).
    + intros He. destruct (Hrec a) as [_ Hedges].
      { apply graph_keys_get. destruct He as (deps & Hd & _). by eexists. }
      destruct (Hedges k He) as (ps' & Hps' & Ha). congruence.
  - intros k ps p Hps Hp. destruct (Hs k ps Hps) as [_ Hpar].
    by destruct (Hpar p Hp).
Qed.

End ParentalMap.

(** ** JobOrderResolver: the traversal *)

Section Traversal.
Variable g : graph (N:=N).
Variable pm : odict (N:=N) (list N).
Hypothesis pm_closed : ∀ k ps p,
  od_get key pm k = Some ps → p ∈ ps → is_Some (od_get key pm (key p)).
Hypothesis pm_parent : ∀ k ps p,
  od_get key pm k = Some ps → p ∈ ps → edge key g (key p) k.

Lemma call_keys_snoc calls n ps :
  call_keys key (calls ++ [(n, ps)]) = call_keys key calls ++ [key n].
Proof. unfold call_keys. by rewrite map_app. Qed.

Lemma calls_ok_snoc calls n ps :
  calls_ok key g pm calls →
  od_get key pm (key n) = Some ps →
  (∀ p, p ∈ ps → key p ∈ call_keys key calls ∨ path key g (key n) (key p)) →
  calls_ok key g pm (calls ++ [(n, ps)]).
Proof.
  intros Hok Hget Hps i n' ps' Hi.
  apply lookup_snoc_Some in Hi as [[Hlt Hi]|[-> [= <- <-]]].
  - rewrite take_app_le by lia. by apply Hok.
  - by rewrite take_app_length.
Qed.

Lemma _call_on_graph_node_helper_spec fuel : ∀ job visited calls,
  is_Some (od_get key pm (key job)) →
  size (graph_keys key pm ∖ visited) < fuel →
  (∀ s, s ∈ visited → s ∉ call_keys key calls → path key g (key job) s) →
  (∀ k, k ∈ call_keys key calls → k ∈ visited) →
  NoDup (call_keys key calls) →
  calls_ok key g pm calls →
  match _call_on_graph_node_helper key fuel job pm record_call
          (visited, calls) with
  | Return (visited', calls') =>
      visited ⊆ visited' ∧ key job ∈ visited'
      ∧ (∀ k, k ∈ call_keys key calls'
              ↔ k ∈ call_keys key calls ∨ (k ∈ visited' ∧ k ∉ visited))
      ∧ NoDup (call_keys key calls') ∧ calls_ok key g pm calls'
  | Raise _ => False
  | OutOfFuel => False
  end.
Proof.
  induction fuel as [|fuel IH];
    intros job visited calls Hsome Hfuel Hprog Hsub Hnd Hok; [lia|].
  simpl. destruct (decide (key job ∈ visited)) as [Hvis|Hnvis].
  { split; [done|]. split; [done|]. split; [|done]. intros k. naive_solver. }
  destruct Hsome as [parents Hget]. rewrite Hget.
  assert (Hjob_key : key job ∈ graph_keys key pm)
    by (apply graph_keys_get; by eexists).
  set (visited1 := {[key job]} ∪ visited).
  set (body := λ parent,
         _call_on_graph_node_helper key fuel parent pm record_call).
  pose (I := λ (done : list N) (st : gset K * list (N * list N)),
          visited1 ⊆ fst st
          ∧ (∀ k, k ∈ call_keys key (snd st)
                  ↔ k ∈ call_keys key calls ∨ (k ∈ fst st ∧ k ∉ visited1))
          ∧ NoDup (call_keys key (snd st)) ∧ calls_ok key g pm (snd st)
          ∧ (∀ p, p ∈ done → key p ∈ fst st)).
  assert (Hloop : match for_each body parents (visited1, calls) with
                  | Return st => I parents st
                  | Raise e => False
                  | OutOfFuel => False
                  end).
  { apply (for_each_ind body I (λ _, False)).
    - unfold I; simpl. split; [done|]. split; [intros k; naive_solver|].
      split; [done|]. split; [done|]. by intros p ?%elem_of_nil.
    - intros done p [vi ci] (Hv & Hck & Hndi & Hoki & Hdone) Hp. simpl in *.
      assert (Hedge : edge key g (key p) (key job)) by (by eapply pm_parent).
      assert (IHp := IH p vi ci). unfold body.
      assert (Hfuel' : size (graph_keys key pm ∖ vi) < fuel)
        by (spend_fuel (key job)).
      assert (Hprog' : ∀ s, s ∈ vi → s ∉ call_keys key ci →
                            path key g (key p) s).
      { intros s Hs Hsc. destruct (decide (s = key job)) as [->|Hne];
          [by apply tc_once|].
        apply tc_l with (key job); [done|]. apply Hprog.
        - destruct (decide (s ∈ visited)) as [|Hnv]; [done|].
          exfalso. apply Hsc, Hck. right. split; [done|]. set_solver.
        - intros Hc. apply Hsc, Hck. by left. }
      assert (Hsub' : ∀ k, k ∈ call_keys key ci → k ∈ vi).
      { intros k [Hk|[Hk _]]%Hck; [|done].
        apply Hv. specialize (Hsub k Hk). set_solver. }
      destruct (_call_on_graph_node_helper key fuel p pm record_call (vi, ci))
        as [[v2 c2]| |]; [|apply IHp; try done; by eapply pm_closed
                          |apply IHp; try done; by eapply pm_closed].
      destruct IHp as (Hv2 & Hp2 & Hck2 & Hnd2 & Hok2); try done;
        [by eapply pm_closed|].
      unfold I; simpl. split; [set_solver|]. split; [|split; [done|split; [done|]]].
      + intros k. rewrite Hck2, Hck. split.
        * intros [[Hk|[Hk Hk1]]|[Hk Hki]]; [by left| |].
          -- right. split; [set_solver|done].
          -- right. split; [done|]. set_solver.
        * intros [Hk|[Hk Hk1]]; [by left; left|].
          destruct (decide (k ∈ vi)); [left; right|right]; done.
      + intros d Hd. apply elem_of_app in Hd as [Hd|Hd].
        * specialize (Hdone d Hd). set_solver.
        * by apply list_elem_of_singleton in Hd as ->. }
  fold body.
  destruct (for_each body parents (visited1, calls)) as [[v' c']| |];
    [|done|done].
  destruct Hloop as (Hv & Hck & Hnd' & Hok' & Hdone). simpl in *.
  assert (Hjob_new : key job ∉ call_keys key c').
  { intros [Hk|[_ Hk]]%Hck; [|set_solver]. by apply Hnvis, Hsub. }
  split; [set_solver|]. split; [set_solver|]. split; [|split].
  - intros k. unfold record_call. rewrite call_keys_snoc, elem_of_app, Hck.
    rewrite list_elem_of_singleton. split.
    + intros [[Hk|[Hk Hk1]]| ->]; [by left| |].
      * right. split; [done|]. set_solver.
      * right. split; [set_solver|done].
    + intros [Hk|[Hk Hk1]]; [by left; left|].
      destruct (decide (k = key job)) as [->|Hne]; [by right|].
      left. right. split; [done|]. set_solver.
  - unfold record_call. rewrite call_keys_snoc. apply NoDup_app.
    split; [done|]. split; [|apply NoDup_singleton].
    intros k Hk ->%list_elem_of_singleton. done.
  - apply calls_ok_snoc; [done|done|].
    intros p Hp.
    destruct (decide (key p ∈ call_keys key c')) as [|Hnc]; [by left|]. right.
    assert (Hedge : edge key g (key p) (key job)) by (by eapply pm_parent).
    destruct (decide (key p = key job)) as [Heq|Hne].
    { rewrite Heq in *. by apply tc_once. }
    apply Hprog.
    + destruct (decide (key p ∈ visited)) as [|Hnv]; [done|].
      exfalso. apply Hnc, Hck. right. split; [by apply Hdone|]. set_solver.
    + intros Hc. apply Hnc, Hck. by left.
Qed.

Lemma _call_on_graph_node_helper_replay {C} (consumer : N → list N → C → C)
    (c0 : C) fuel : ∀ job visited calls,
  result_rel
    (λ st1 st2, fst st1 = fst st2 ∧ snd st2 = replay consumer (snd st1) c0)
    (_call_on_graph_node_helper key fuel job pm record_call (visited, calls))
    (_call_on_graph_node_helper key fuel job pm consumer
       (visited, replay consumer calls c0)).
Proof.
  induction fuel as [|fuel IH]; intros job visited calls; simpl; [done|].
  destruct (decide (key job ∈ visited)); simpl; [done|].
  destruct (od_get key pm (key job)) as [parents|]; simpl; [|done].
  assert (Hloop : result_rel
            (λ (st1 : gset K * list (N * list N)) (st2 : gset K * C),
               fst st1 = fst st2 ∧ snd st2 = replay consumer (snd st1) c0)
            (for_each
               (λ parent, _call_on_graph_node_helper key fuel parent pm record_call)
               parents ({[key job]} ∪ visited, calls))
            (for_each
               (λ parent, _call_on_graph_node_helper key fuel parent pm consumer)
               parents ({[key job]} ∪ visited, replay consumer calls c0))).
  { apply for_each_rel; [|done].
    intros x [v1 c1] [v2 c2] _ [Hv Hc]; simpl in *; subst. apply IH. }
  destruct (for_each _ parents ({[key job]} ∪ visited, calls)) as [[v1 c1]|e1|],
           (for_each _ parents ({[key job]} ∪ visited, replay consumer calls c0))
             as [[v2 c2]|e2|]; simpl in *; try done.
  destruct Hloop as [-> ->]. split; [done|].
  unfold record_call, replay. by rewrite fold_left_app.
Qed.

Lemma call_on_graph_nodes_spec :
  ∃ calls,
    call_on_graph_nodes key {| job_graph := g; parental_map := pm |}
      record_call [] = Return calls
    ∧ NoDup (call_keys key calls)
    ∧ (∀ k, k ∈ call_keys key calls ↔ is_Some (od_get key pm k))
    ∧ calls_ok key g pm calls.
Proof.
  unfold call_on_graph_nodes. cbn [parental_map].
  remember (S (length pm)) as fuel eqn:Hfuel.
  set (body := λ job, _call_on_graph_node_helper key fuel job pm record_call).
  pose (I := λ (done : list N) (st : gset K * list (N * list N)),
          (∀ k, k ∈ call_keys key (snd st) ↔ k ∈ fst st)
          ∧ NoDup (call_keys key (snd st)) ∧ calls_ok key g pm (snd st)
          ∧ (∀ d, d ∈ done → key d ∈ fst st)).
  assert (Hloop : match for_each body (od_keys pm) (∅, []) with
                  | Return st => I (od_keys pm) st
                  | Raise e => False
                  | OutOfFuel => False
                  end).
  { apply (for_each_ind body I (λ _, False)).
    - unfold I; simpl. split; [intros k; set_solver|].
      split; [apply NoDup_nil_2|]. split; [by intros i n ps ?|].
      by intros d ?%elem_of_nil.
    - intros done x [vi ci] (Hck & Hnd & Hok & Hdone) Hx. simpl in *.
      assert (Hspec := _call_on_graph_node_helper_spec fuel x vi ci).
      unfold body.
      assert (Hfuel' : size (graph_keys key pm ∖ vi) < fuel).
      { pose proof (graph_keys_size pm vi). lia. }
      assert (Hsome : is_Some (od_get key pm (key x))) by (by apply od_keys_get).
      assert (Hprog : ∀ s, s ∈ vi → s ∉ call_keys key ci →
                           path key g (key x) s).
      { intros s Hs Hsc. exfalso. by apply Hsc, Hck. }
      assert (Hsub : ∀ k, k ∈ call_keys key ci → k ∈ vi).
      { intros k. by rewrite Hck. }
      destruct (_call_on_graph_node_helper key fuel x pm record_call (vi, ci))
        as [[v2 c2]| |]; [|by apply Hspec|by apply Hspec].
      destruct Hspec as (Hv2 & Hx2 & Hck2 & Hnd2 & Hok2); try done.
      unfold I; simpl. split; [|split; [done|split; [done|]]].
      + intros k. rewrite Hck2, Hck. split; [set_solver|].
        intros Hk. destruct (decide (k ∈ vi)); [by left|by right].
      + intros d Hd. apply elem_of_app in Hd as [Hd|Hd].
        * specialize (Hdone d Hd). set_solver.
        * by apply list_elem_of_singleton in Hd as ->. }
  destruct (for_each body (od_keys pm) (∅, [])) as [[v calls]| |];
    [|done|done].
  destruct Hloop as (Hck & Hnd & Hok & Hdone). simpl in *.
  exists calls. split; [done|]. split; [done|]. split; [|done].
  intros k. split.
  - intros (c & -> & Hc)%list_elem_of_fmap.
    apply list_elem_of_lookup in Hc as [i Hi]. destruct c as [n ps].
    destruct (Hok i n ps Hi) as [Hget _]. by eexists.
  - intros (n & -> & Hn)%od_get_keys_iff%list_elem_of_fmap.
    apply Hck. by apply Hdone.
Qed.

Lemma call_on_graph_nodes_replay {C} (consumer : N → list N → C → C)
    (c : C) calls :
  call_on_graph_nodes key {| job_graph := g; parental_map := pm |}
    record_call [] = Return calls →
  call_on_graph_nodes key {| job_graph := g; parental_map := pm |}
    consumer c = Return (replay consumer calls c).
Proof.
  unfold call_on_graph_nodes. cbn [parental_map].
  assert (Hloop : result_rel
            (λ (st1 : gset K * list (N * list N)) (st2 : gset K * C),
               fst st1 = fst st2 ∧ snd st2 = replay consumer (snd st1) c)
            (for_each
               (λ job, _call_on_graph_node_helper key (S (length pm)) job pm
                         record_call)
               (od_keys pm) (∅, []))
            (for_each
               (λ job, _call_on_graph_node_helper key (S (length pm)) job pm
                         consumer)
               (od_keys pm) (∅, c))).
  { apply for_each_rel; [|done].
    intros x [v1 c1] [v2 c2] _ [Hv Hc]. simpl in Hv, Hc. subst.
    apply _call_on_graph_node_helper_replay. }
  destruct (for_each _ (od_keys pm) (∅, [])) as [[v1 c1]|e1|],
           (for_each _ (od_keys pm) (∅, c)) as [[v2 c2]|e2|];
    simpl in *; try done.
  destruct Hloop as [_ ->]. by intros [= ->].
Qed.

Lemma replay_add_to_ordered_job (calls : list (N * list N)) (acc : list N) :
  replay (λ job (_ : list N) ordered_jobs, ordered_jobs ++ [job]) calls acc
  = acc ++ map fst calls.
Proof.
  revert acc. induction calls as [|[n ps] calls IH]; intros acc; simpl.
  - by rewrite app_nil_r.
  - unfold replay in *. simpl. rewrite IH. by rewrite <- app_assoc.
Qed.

Lemma find_sequential_run_order_calls calls :
  call_on_graph_nodes key {| job_graph := g; parental_map := pm |}
    record_call [] = Return calls →
  find_sequential_run_order key {| job_graph := g; parental_map := pm |}
  = Return (map fst calls).
Proof.
  intros Hcalls. unfold find_sequential_run_order.
  rewrite (call_on_graph_nodes_replay _ _ calls Hcalls).
  by rewrite replay_add_to_ordered_job.
Qed.

End Traversal.

(** The resolver of any graph: it is built, and its traversal invokes the
    consumer once per node of the graph. *)
Lemma JobOrderResolver_spec (g : graph (N:=N)) :
  ∃ self calls,
    JobOrderResolver_init key g = Return self
    ∧ call_on_graph_nodes key self record_call [] = Return calls
    ∧ (∀ C (consumer : N → list N → C → C) c,
         call_on_graph_nodes key self consumer c
         = Return (replay consumer calls c))
    ∧ find_sequential_run_order key self = Return (map fst calls)
    ∧ NoDup (call_keys key calls)
    ∧ (∀ k, k ∈ call_keys key calls ↔ k ∈ map key (graph_nodes key g))
    ∧ calls_ok key g (parental_map self) calls
    ∧ (∀ k ps, od_get key (parental_map self) k = Some ps →
         ∀ a, a ∈ map key ps ↔ edge key g a k).
Proof.
  destruct (_build_parental_map_correct g) as (pm & Hbuild & Hkeys & Hpar & Hcl).
  assert (Hparent : ∀ k ps p, od_get key pm k = Some ps → p ∈ ps →
                              edge key g (key p) k).
  { intros k ps p Hps Hp. apply (Hpar k ps Hps). apply list_elem_of_fmap.
    by exists p. }
  destruct (call_on_graph_nodes_spec g pm Hcl Hparent)
    as (calls & Hcalls & Hnd & Hck & Hok).
  exists {| job_graph := g; parental_map := pm |}, calls.
  split; [unfold JobOrderResolver_init; by rewrite Hbuild|].
  split; [done|].
  split; [intros C consumer c; by apply call_on_graph_nodes_replay|].
  split; [by apply find_sequential_run_order_calls|].
  split; [done|]. split; [|by split].
  intros k. rewrite Hck, Hkeys. unfold node_keys. by rewrite elem_of_list_to_set.
Qed.

Lemma calls_ok_parents_first (g : graph (N:=N)) pm calls :
  acyclic key g →
  (∀ k ps, od_get key pm k = Some ps → ∀ a, a ∈ map key ps ↔ edge key g a k) →
  calls_ok key g pm calls →
  parents_first key g (map fst calls).
Proof.
  intros Hac Hpar Hok l1 n l2 Horder p Hp.
  assert (Hi : map fst calls !! length l1 = Some n)
    by (rewrite Horder; by apply list_lookup_middle).
  rewrite list_lookup_fmap in Hi.
  destruct (calls !! length l1) as [[n' ps]|] eqn:Hcall; simpl in Hi; [|done].
  injection Hi as ->.
  destruct (Hok _ _ _ Hcall) as [Hget Hps].
  apply (Hpar _ _ Hget) in Hp as Hin.
  apply list_elem_of_fmap in Hin as (p' & -> & Hp').
  destruct (Hps p' Hp') as [Hbefore|Hpath].
  - unfold call_keys in Hbefore.
    replace l1 with (take (length l1) (map fst calls))
      by (rewrite Horder; apply take_app_length).
    rewrite <- fmap_take.
    apply list_elem_of_fmap in Hbefore as (c & -> & Hc).
    apply list_elem_of_fmap. exists (fst c). split; [done|].
    apply list_elem_of_fmap. by exists c.
  - exfalso. apply (Hac (key n)). eapply tc_r; eauto.
Qed.

Lemma validate_Return_acyclic (g : graph (N:=N)) :
  validate key g = Return tt → acyclic key g.
Proof.
  intros Hv. pose proof (validate_spec g) as Hspec. by rewrite Hv in Hspec.
Qed.

Lemma acyclic_validate_Return (g : graph (N:=N)) :
  acyclic key g → validate key g = Return tt.
Proof.
  intros Hac. pose proof (validate_spec g) as Hspec.
  destruct (validate key g) as [[]|[j]|]; [done| |done].
  exfalso. exact (Hac (key j) Hspec).
Qed.

(** C10.  On an acyclic graph, one traversal invokes the consumer exactly
    once per node of the graph (each key and each listed target): the
    recorded invocations have pairwise distinct nodes, which are exactly the
    nodes of the graph; every consumer sees those invocations; and
    [find_sequential_run_order] returns their nodes, so each node once. *)
Theorem call_on_graph_nodes_once (g : graph (N:=N)) :
  acyclic key g →
  ∃ self calls order,
    JobOrderResolver_init key g = Return self
    ∧ call_on_graph_nodes key self record_call [] = Return calls
    ∧ (∀ C (consumer : N → list N → C → C) c,
         call_on_graph_nodes key self consumer c
         = Return (replay consumer calls c))
    ∧ find_sequential_run_order key self = Return order
    ∧ order = map fst calls
    ∧ NoDup (map key order)
    ∧ (∀ k, k ∈ map key order ↔ k ∈ map key (graph_nodes key g)).
Proof.
  intros _.
  destruct (JobOrderResolver_spec g)
    as (self & calls & Hinit & Hcalls & Hreplay & Horder & Hnd & Hck & _).
  exists self, calls, (map fst calls).
  assert (Hkeys : map key (map fst calls) = call_keys key calls).
  { unfold call_keys. by rewrite map_map. }
  repeat (split; [done|]). rewrite Hkeys. by split.
Qed.

Lemma parents_first_acyclic (g : graph (N:=N)) :
  acyclic key g →
  ∃ self calls order,
    JobOrderResolver_init key g = Return self
    ∧ call_on_graph_nodes key self record_call [] = Return calls
    ∧ (∀ C (consumer : N → list N → C → C) c,
         call_on_graph_nodes key self consumer c
         = Return (replay consumer calls c))
    ∧ find_sequential_run_order key self = Return order
    ∧ order = map fst calls
    ∧ parents_first key g order.
Proof.
  intros Hac.
  destruct (JobOrderResolver_spec g)
    as (self & calls & Hinit & Hcalls & Hreplay & Horder & Hnd & Hck & Hok & Hpar).
  exists self, calls, (map fst calls).
  repeat (split; [done|]). by eapply calls_ok_parents_first.
Qed.

End GraphFacts.

Lemma before_intro {N K} (key : N → K) (a b : K) (l1 l2 l : list N) :
  l = l1 ++ l2 → a ∈ map key l1 → b ∈ map key l2 → before key a b l.
Proof. intros -> Ha Hb. by exists l1, l2. Qed.

(** C1, amended.  On every acyclic graph the traversal invokes the consumer
    on a node only after it was invoked on each of the node's parents, so
    the list [find_sequential_run_order] returns is parents-first.  For
    [{A: [B, C], B: [D], C: [D]}] the order is [A, B, C, D]: [A] before [B]
    and [C], both before [D]. *)
Theorem call_on_graph_nodes_parents_first :
  (∀ (N K : Type) (EqK : EqDecision K) (CntK : Countable K) (key : N → K)
     (g : graph (N:=N)),
     acyclic key g →
     ∃ self calls order,
       JobOrderResolver_init key g = Return self
       ∧ call_on_graph_nodes key self record_call [] = Return calls
       ∧ (∀ C (consumer : N → list N → C → C) c,
            call_on_graph_nodes key self consumer c
            = Return (replay consumer calls c))
       ∧ find_sequential_run_order key self = Return order
       ∧ order = map fst calls
       ∧ parents_first key g order)
  ∧ (∃ self order,
       JobOrderResolver_init string_key diamond = Return self
       ∧ find_sequential_run_order string_key self = Return order
       ∧ order = ["A"; "B"; "C"; "D"]%string
       ∧ before string_key "A"%string "B"%string order
       ∧ before string_key "A"%string "C"%string order
       ∧ before string_key "B"%string "D"%string order
       ∧ before string_key "C"%string "D"%string order).
Proof.
  split.
  - intros N K EqK CntK key g. apply parents_first_acyclic.
  - eexists _, _. split; [vm_compute; reflexivity|].
    split; [vm_compute; reflexivity|]. split; [reflexivity|].
    split; [|split; [|split]].
    + apply (before_intro string_key _ _ ["A"] ["B"; "C"; "D"])%string;
        [done|set_solver..].
    + apply (before_intro string_key _ _ ["A"; "B"] ["C"; "D"])%string;
        [done|set_solver..].
    + apply (before_intro string_key _ _ ["A"; "B"; "C"] ["D"])%string;
        [done|set_solver..].
    + apply (before_intro string_key _ _ ["A"; "B"; "C"] ["D"])%string;
        [done|set_solver..].
Qed.

Lemma validate_iff_acyclic_witness :
  ¬ acyclic string_key two_cycle
  ∧ ∃ j, validate string_key two_cycle = Raise (Found_cyclic_dependency_on_job j)
         ∧ path string_key two_cycle (string_key j) (string_key j).
Proof.
  assert (Hcyc : ¬ acyclic string_key two_cycle).
  { intros Hac. apply (Hac "A"%string).
    apply tc_l with "B"%string; [|apply tc_once].
    - exists ["B"%string]. split; [reflexivity|]. set_solver.
    - exists ["A"%string]. split; [reflexivity|]. set_solver. }
  split; [exact Hcyc|].
  exact (proj2 (validate_iff_acyclic string_key two_cycle) Hcyc).
Defined.

Lemma diamond_acyclic : acyclic string_key diamond.
Proof. apply validate_Return_acyclic. vm_compute. reflexivity. Qed.

Lemma call_on_graph_nodes_parents_first_witness :
  acyclic string_key diamond
  ∧ ∃ self calls order,
      JobOrderResolver_init string_key diamond = Return self
      ∧ call_on_graph_nodes string_key self record_call [] = Return calls
      ∧ (∀ C (consumer : string → list string → C → C) c,
           call_on_graph_nodes string_key self consumer c
           = Return (replay consumer calls c))
      ∧ find_sequential_run_order string_key self = Return order
      ∧ order = map fst calls
      ∧ parents_first string_key diamond order.
Proof.
  split; [exact diamond_acyclic|].
  apply (proj1 call_on_graph_nodes_parents_first). exact diamond_acyclic.
Defined.

Lemma call_on_graph_nodes_once_witness :
  acyclic string_key diamond
  ∧ ∃ self calls order,
      JobOrderResolver_init string_key diamond = Return self
      ∧ call_on_graph_nodes string_key self record_call [] = Return calls
      ∧ (∀ C (consumer : string → list string → C → C) c,
           call_on_graph_nodes string_key self consumer c
           = Return (replay consumer calls c))
      ∧ find_sequential_run_order string_key self = Return order
      ∧ order = map fst calls
      ∧ NoDup (map string_key order)
      ∧ (∀ k, k ∈ map string_key order ↔ k ∈ map string_key (graph_nodes string_key diamond)).
Proof.
  split; [exact diamond_acyclic|].
  apply (call_on_graph_nodes_once string_key diamond). exact diamond_acyclic.
Defined.

(** C1 as the specification states it, for every graph, fails on a
    cycle: for [{A: [B], B: [A]}] the order is [B, A], where [B] is consumed
    before its parent [A]. *)
Lemma parents_first_two_cycle_counterexample :
  ∃ self order,
    JobOrderResolver_init string_key two_cycle = Return self
    ∧ find_sequential_run_order string_key self = Return order
    ∧ order = ["B"; "A"]%string
    ∧ ¬ parents_first string_key two_cycle order.
Proof.
  eexists _, _. split; [vm_compute; reflexivity|].
  split; [vm_compute; reflexivity|]. split; [reflexivity|].
  intros Hpf. specialize (Hpf [] "B" ["A"] eq_refl "A")%string.
  assert (Hedge : edge string_key two_cycle "A"%string (string_key "B"%string)).
  { exists ["B"%string]. split; [reflexivity|]. set_solver. }
  apply Hpf in Hedge. by apply elem_of_nil in Hedge.
Qed.

(** ** Definition: the graph of a job list *)

Section ChainFacts.
Context {N K : Type} `{Countable K}.
Variable key : N → K.
Variable job_list : list N.
Hypothesis distinct : ∀ i j a b,
  job_list !! i = Some a → job_list !! j = Some b → key a = key b → i = j.

Lemma chain_fold_get k :
  k < length job_list →
  ∀ x deps,
    od_get key
      (fold_left
         (λ graph_as_dict i,
            match job_list !! (i - 1), job_list !! i with
            | Some a, Some b => od_set key graph_as_dict a [b]
            | _, _ => graph_as_dict
            end)
         (seq 1 k) []) x = Some deps
    ↔ ∃ i a b, i < k ∧ job_list !! i = Some a ∧ job_list !! S i = Some b
               ∧ x = key a ∧ deps = [b].
Proof.
  induction k as [|k IH]; intros Hk x deps.
  - simpl. split; [done|]. intros (i & ? & ? & ? & _). lia.
  - rewrite seq_S, fold_left_app. simpl. rewrite Nat.sub_0_r.
    destruct (lookup_lt_is_Some_2 job_list k) as [a Ha]; [lia|].
    destruct (lookup_lt_is_Some_2 job_list (S k)) as [b Hb]; [lia|].
    rewrite Ha, Hb, od_get_set.
    specialize (IH ltac:(lia) x deps). case_decide as Hx.
    + split.
      * intros [= <-]. exists k, a, b. repeat split; [lia|done..].
      * intros (i & a' & b' & Hi & Ha' & Hb' & -> & ->).
        assert (i = k) as -> by (by eapply distinct).
        congruence.
    + rewrite IH. split.
      * intros (i & a' & b' & Hi & Hrest). exists i, a', b'. split; [lia|done].
      * intros (i & a' & b' & Hi & Ha' & Hb' & -> & ->).
        exists i, a', b'. split; [|done].
        destruct (decide (i = k)) as [->|]; [|lia]. congruence.
Qed.

Lemma _convert_list_to_graph_get :
  length job_list ≠ 1 →
  ∀ x deps,
    od_get key (_convert_list_to_graph key job_list) x = Some deps
    ↔ ∃ i a b, job_list !! i = Some a ∧ job_list !! S i = Some b
               ∧ x = key a ∧ deps = [b].
Proof.
  intros Hlen x deps. unfold _convert_list_to_graph.
  destruct (decide (length job_list = 1)) as [|_]; [done|].
  destruct (decide (length job_list = 0)) as [Hz|Hnz].
  { rewrite Hz. simpl. split; [done|].
    intros (i & a & b & Ha%lookup_lt_Some & _). lia. }
  rewrite chain_fold_get by lia. split.
  - intros (i & a & b & _ & Hrest). by exists i, a, b.
  - intros (i & a & b & Ha & Hb & Hrest). exists i, a, b.
    split; [|done]. apply lookup_lt_Some in Hb. lia.
Qed.

Lemma _convert_list_to_graph_acyclic :
  length job_list ≠ 1 → acyclic key (_convert_list_to_graph key job_list).
Proof.
  intros Hlen.
  assert (Hedge : ∀ x y, edge key (_convert_list_to_graph key job_list) x y →
            ∃ i a b, job_list !! i = Some a ∧ job_list !! S i = Some b
                     ∧ x = key a ∧ y = key b).
  { intros x y (deps & Hget & Hy).
    apply _convert_list_to_graph_get in Hget as (i & a & b & Ha & Hb & -> & ->);
      [|done].
    exists i, a, b. repeat split; try done.
    apply list_elem_of_fmap in Hy as (b' & -> & Hb').
    by apply list_elem_of_singleton in Hb' as ->. }
  assert (Hpath : ∀ x y, path key (_convert_list_to_graph key job_list) x y →
            ∃ i j a b, job_list !! i = Some a ∧ job_list !! j = Some b
                       ∧ x = key a ∧ y = key b ∧ i < j).
  { intros x y Hp. induction Hp as [x y He|x y z He Hp IH].
    - destruct (Hedge _ _ He) as (i & a & b & Ha & Hb & -> & ->).
      exists i, (S i), a, b. repeat split; try done. lia.
    - destruct (Hedge _ _ He) as (i & a & b & Ha & Hb & -> & ->).
      destruct IH as (i' & j & a' & c & Ha' & Hc & Heq & -> & Hlt).
      assert (S i = i') as <- by (by eapply distinct).
      exists i, j, a, c. repeat split; try done. lia. }
  intros x Hx. destruct (Hpath _ _ Hx) as (i & j & a & b & Ha & Hb & -> & Heq & Hlt).
  assert (i = j) by (by eapply distinct). lia.
Qed.

End ChainFacts.

(** ** More on loops and dictionaries *)

(** A loop invariant for the runs that return. *)
Lemma for_each_inv {E A S} (body : A → S → result E S) (I : S → Prop)
    (l : list A) :
  (∀ x s, x ∈ l → I s →
     match body x s with Return s' => I s' | _ => True end) →
  ∀ s, I s → match for_each body l s with Return s' => I s' | _ => True end.
Proof.
  induction l as [|x l IH]; intros Hbody s HI; simpl; [done|].
  assert (Hx := Hbody x s (list_elem_of_here _ _) HI).
  destruct (body x s) as [s1| |]; simpl; [|done|done].
  apply IH; [|done]. intros y t Hy. apply Hbody. by apply list_elem_of_further.
Qed.

Section DictFacts.
Context {N K : Type} `{Countable K}.
Variable key : N → K.

Lemma od_get_Some_elem {V} (d : odict V) k v :
  od_get key d k = Some v → ∃ n, (n, v) ∈ d ∧ key n = k.
Proof.
  induction d as [|[m w] d IH]; simpl; [done|].
  destruct (decide (key m = k)) as [Heq|Hne].
  - intros [= <-]. exists m. split; [left|done].
  - intros Hget. destruct (IH Hget) as (n & Hn & Hk).
    exists n. split; [by right|done].
Qed.

Lemma od_keys_set {V} (d : odict V) n v :
  od_keys (od_set key d n v)
  = if od_mem key d (key n) then od_keys d else od_keys d ++ [n].
Proof.
  unfold od_mem. induction d as [|[m w] d IH]; simpl; [done|].
  destruct (decide (key m = key n)) as [Heq|Hne]; simpl; [done|].
  rewrite IH. by destruct (od_get key d (key n)).
Qed.

Lemma od_keys_append (d : odict (list N)) k x :
  od_keys (od_append key d k x) = od_keys d.
Proof.
  induction d as [|[m l] d IH]; simpl; [done|].
  destruct (decide (key m = k)); simpl; [done|]. by rewrite IH.
Qed.

Lemma od_keys_ensure (d : odict (list N)) n :
  od_keys (od_ensure key d n)
  = if od_mem key d (key n) then od_keys d else od_keys d ++ [n].
Proof.
  unfold od_ensure. destruct (od_mem key d (key n)) eqn:Hmem; [done|].
  by rewrite od_keys_set, Hmem.
Qed.

Lemma od_mem_false_keys {V} (d : odict V) k :
  od_mem key d k = false → k ∉ map key (od_keys d).
Proof.
  intros Hmem Hin. apply od_get_keys_iff in Hin.
  apply od_mem_spec in Hin. congruence.
Qed.

Lemma od_ensure_NoDup (d : odict (list N)) n :
  NoDup (map key (od_keys d)) → NoDup (map key (od_keys (od_ensure key d n))).
Proof.
  intros Hnd. rewrite od_keys_ensure.
  destruct (od_mem key d (key n)) eqn:Hmem; [done|].
  rewrite map_app. apply NoDup_app. split; [done|].
  split; [|apply NoDup_singleton].
  intros k Hk ->%list_elem_of_singleton. by eapply od_mem_false_keys.
Qed.

Lemma od_set_NoDup {V} (d : odict V) n v :
  NoDup (map key (od_keys d)) → NoDup (map key (od_keys (od_set key d n v))).
Proof.
  intros Hnd. rewrite od_keys_set.
  destruct (od_mem key d (key n)) eqn:Hmem; [done|].
  rewrite map_app. apply NoDup_app. split; [done|].
  split; [|apply NoDup_singleton].
  intros k Hk ->%list_elem_of_singleton. by eapply od_mem_false_keys.
Qed.

Lemma od_set_objects objs (d : odict (list N)) n v :
  n ∈ objs → Forall (λ p, p ∈ objs) v →
  od_objects_in objs d → od_objects_in objs (od_set key d n v).
Proof.
  intros Hn Hv Hd. induction Hd as [|[m w] d [Hm Hw] Hd IH]; simpl.
  - by repeat constructor.
  - destruct (decide (key m = key n)); by constructor.
Qed.

Lemma od_ensure_objects objs (d : odict (list N)) n :
  n ∈ objs → od_objects_in objs d → od_objects_in objs (od_ensure key d n).
Proof.
  intros Hn Hd. unfold od_ensure. destruct (od_mem key d (key n)); [done|].
  by apply od_set_objects.
Qed.

Lemma od_append_objects objs (d : odict (list N)) k x :
  x ∈ objs → od_objects_in objs d → od_objects_in objs (od_append key d k x).
Proof.
  intros Hx Hd. induction Hd as [|[m w] d [Hm Hw] Hd IH]; simpl; [constructor|].
  destruct (decide (key m = k)); constructor; try done.
  split; [done|]. simpl in *. apply Forall_app. split; [done|].
  by repeat constructor.
Qed.

Lemma od_objects_get objs (d : odict (list N)) k ps p :
  od_objects_in objs d → od_get key d k = Some ps → p ∈ ps → p ∈ objs.
Proof.
  intros Hd Hget Hp. destruct (od_get_Some_elem _ _ _ Hget) as (n & Hn & _).
  unfold od_objects_in in Hd. rewrite Forall_forall in Hd.
  destruct (Hd _ Hn) as [_ Hps]. simpl in Hps. rewrite Forall_forall in Hps.
  by apply Hps.
Qed.

Lemma od_objects_keys objs (d : odict (list N)) n :
  od_objects_in objs d → n ∈ od_keys d → n ∈ objs.
Proof.
  intros Hd (e & -> & He)%list_elem_of_fmap.
  unfold od_objects_in in Hd. rewrite Forall_forall in Hd.
  by destruct (Hd _ He).
Qed.

Lemma od_get_graph_nodes (g : graph (N:=N)) k deps d :
  od_get key g k = Some deps → d ∈ deps → d ∈ graph_nodes key g.
Proof.
  intros Hget Hd. destruct (od_get_Some_key key _ _ _ Hget) as (n & Hn & <-).
  unfold graph_nodes. apply elem_of_app. right.
  apply list_elem_of_bind. exists n. by rewrite Hget.
Qed.

End DictFacts.

(** ** The objects held by the parental map and by the order *)

Section ObjectFacts.
Context {N K : Type} `{Countable K}.
Variable key : N → K.
Variable g : graph (N:=N).

Lemma _fill_parental_map_objects fuel : ∀ job pm visited,
  job ∈ graph_nodes key g →
  od_objects_in (graph_nodes key g) pm → NoDup (map key (od_keys pm)) →
  match _fill_parental_map key fuel g job (pm, visited) with
  | Return (pm', _) =>
      od_objects_in (graph_nodes key g) pm' ∧ NoDup (map key (od_keys pm'))
  | _ => True
  end.
Proof.
  induction fuel as [|fuel IH]; intros job pm visited Hjob Hobj Hnd; [done|].
  simpl. destruct (od_get key g (key job)) as [deps|] eqn:Hget; [|done].
  destruct (decide (key job ∈ visited)); [done|].
  pose (I := λ (st : odict (N:=N) (list N) * gset K),
          od_objects_in (graph_nodes key g) (fst st)
          ∧ NoDup (map key (od_keys (fst st)))).
  match goal with
  | |- match for_each ?body deps ?s with _ => _ end =>
      assert (Hloop := for_each_inv body I deps); specialize (Hloop) ;
      assert (Hs : I s)
  end.
  { split; simpl; [by apply od_ensure_objects|by apply od_ensure_NoDup]. }
  match type of Hloop with
  | ?P → _ => assert (Hbody : P)
  end.
  { intros x [pmi vi] Hx [Hobji Hndi]. simpl in *.
    assert (Hxn : x ∈ graph_nodes key g) by (by eapply od_get_graph_nodes).
    assert (IHx := IH x (od_append key (od_ensure key pmi x) (key x) job) vi Hxn).
    destruct (_fill_parental_map key fuel g x _) as [[pm2 v2]| |]; [|done|done].
    apply IHx.
    - by apply od_append_objects, od_ensure_objects.
    - rewrite od_keys_append. by apply od_ensure_NoDup. }
  specialize (Hloop Hbody _ Hs).
  destruct (for_each _ deps _) as [[pm' v']| |]; done.
Qed.

Lemma _build_parental_map_objects pm :
  _build_parental_map key g = Return pm →
  od_objects_in (graph_nodes key g) pm ∧ NoDup (map key (od_keys pm)).
Proof.
  unfold _build_parental_map.
  pose (I := λ (st : odict (N:=N) (list N) * gset K),
          od_objects_in (graph_nodes key g) (fst st)
          ∧ NoDup (map key (od_keys (fst st)))).
  assert (Hloop := for_each_inv
            (_fill_parental_map key (S (length g)) g) I (od_keys g)).
  assert (Hbody : ∀ x s, x ∈ od_keys g → I s →
            match _fill_parental_map key (S (length g)) g x s with
            | Return s' => I s'
            | _ => True
            end).
  { intros x [pmi vi] Hx [Hobji Hndi].
    assert (Hxn : x ∈ graph_nodes key g).
    { unfold graph_nodes. apply elem_of_app. by left. }
    assert (Hf := _fill_parental_map_objects (S (length g)) x pmi vi Hxn Hobji Hndi).
    destruct (_fill_parental_map key (S (length g)) g x (pmi, vi))
      as [[pm2 v2]| |]; done. }
  specialize (Hloop Hbody (([], ∅) : odict (N:=N) (list N) * gset K)).
  destruct (for_each _ (od_keys g) _) as [[pm' v']| |]; simpl; try done.
  intros [= <-]. apply Hloop. split; [constructor|simpl; constructor].
Qed.

Lemma _call_on_graph_node_helper_objects (pm : odict (N:=N) (list N)) objs fuel :
  od_objects_in objs pm →
  ∀ job visited calls,
    job ∈ objs → Forall (λ c, fst c ∈ objs) calls →
    match _call_on_graph_node_helper key fuel job pm record_call
            (visited, calls) with
    | Return (_, calls') => Forall (λ c, fst c ∈ objs) calls'
    | _ => True
    end.
Proof.
  intros Hpm. induction fuel as [|fuel IH]; intros job visited calls Hjob Hcalls;
    [done|].
  simpl. destruct (decide (key job ∈ visited)); [done|].
  destruct (od_get key pm (key job)) as [parents|] eqn:Hget; [|done].
  pose (I := λ (st : gset K * list (N * list N)),
          Forall (λ c, fst c ∈ objs) (snd st)).
  assert (Hloop := for_each_inv
            (λ parent, _call_on_graph_node_helper key fuel parent pm record_call)
            I parents).
  assert (Hbody : ∀ x s, x ∈ parents → I s →
            match _call_on_graph_node_helper key fuel x pm record_call s with
            | Return s' => I s'
            | _ => True
            end).
  { intros x [vi ci] Hx Hci.
    assert (IHx := IH x vi ci (od_objects_get key _ _ _ _ _ Hpm Hget Hx) Hci).
    destruct (_call_on_graph_node_helper key fuel x pm record_call (vi, ci))
      as [[v2 c2]| |]; done. }
  specialize (Hloop Hbody ({[key job]} ∪ visited, calls) Hcalls).
  destruct (for_each _ parents _) as [[v' c']| |]; simpl; try done.
  unfold record_call. apply Forall_app. split; [done|]. by repeat constructor.
Qed.

Lemma call_on_graph_nodes_objects (self : JobOrderResolver (N:=N)) objs calls :
  od_objects_in objs (parental_map self) →
  call_on_graph_nodes key self record_call [] = Return calls →
  Forall (λ c, fst c ∈ objs) calls.
Proof.
  intros Hpm. unfold call_on_graph_nodes.
  pose (I := λ (st : gset K * list (N * list N)),
          Forall (λ c, fst c ∈ objs) (snd st)).
  assert (Hloop := for_each_inv
            (λ job, _call_on_graph_node_helper key
                      (S (length (parental_map self))) job (parental_map self)
                      record_call)
            I (od_keys (parental_map self))).
  assert (Hbody : ∀ x s, x ∈ od_keys (parental_map self) → I s →
            match _call_on_graph_node_helper key
                    (S (length (parental_map self))) x (parental_map self)
                    record_call s with
            | Return s' => I s'
            | _ => True
            end).
  { intros x [vi ci] Hx Hci.
    assert (Hh := _call_on_graph_node_helper_objects (parental_map self) objs
                    (S (length (parental_map self))) Hpm x vi ci
                    (od_objects_keys _ _ _ Hpm Hx) Hci).
    destruct (_call_on_graph_node_helper key _ x _ record_call (vi, ci))
      as [[v2 c2]| |]; done. }
  specialize (Hloop Hbody ((∅, []) : gset K * list (N * list N))
                ltac:(constructor)).
  destruct (for_each _ (od_keys (parental_map self)) _) as [[v' c']| |];
    simpl; try done.
  by intros [= <-].
Qed.

End ObjectFacts.

Section ResolverExtras.
Context {N K : Type} `{Countable K}.
Variable key : N → K.

Lemma JobOrderResolver_init_parental_map (g : graph (N:=N)) self :
  JobOrderResolver_init key g = Return self →
  _build_parental_map key g = Return (parental_map self) ∧ job_graph self = g.
Proof.
  unfold JobOrderResolver_init.
  destruct (_build_parental_map key g) as [pm| |]; simpl; try done.
  by intros [= <-].
Qed.

(** X1.  For every graph, [_build_parental_map] returns a dict with one
    entry per node of the graph (each key and each listed target) and no
    two entries of equal identity; the list under a node names exactly the
    nodes whose own list holds it; and every object in it is an object of
    the graph. *)
Theorem _build_parental_map_inverts_graph (g : graph (N:=N)) :
  ∃ pm,
    _build_parental_map key g = Return pm
    ∧ NoDup (map key (od_keys pm))
    ∧ (∀ k, is_Some (od_get key pm k) ↔ k ∈ map key (graph_nodes key g))
    ∧ (∀ k ps, od_get key pm k = Some ps →
         ∀ a, a ∈ map key ps ↔ edge key g a k)
    ∧ od_objects_in (graph_nodes key g) pm.
Proof.
  destruct (_build_parental_map_correct key g) as (pm & Hbuild & Hkeys & Hpar & _).
  destruct (_build_parental_map_objects key g pm Hbuild) as [Hobj Hnd].
  exists pm. repeat (split; [done|]). split; [|by split].
  intros k. rewrite Hkeys. unfold node_keys. by rewrite elem_of_list_to_set.
Qed.

(** X2.  For every graph, cyclic or not, the resolver is built and the
    traversal returns (no KeyError, no endless recursion).  Each consumer
    invocation gets a node object of the graph together with the list of
    exactly its parents, and each of those parents was consumed earlier
    unless the node reaches it, that is unless both lie on one cycle. *)
Theorem call_on_graph_nodes_passes_parents (g : graph (N:=N)) :
  ∃ self calls,
    JobOrderResolver_init key g = Return self
    ∧ call_on_graph_nodes key self record_call [] = Return calls
    ∧ ∀ i n ps, calls !! i = Some (n, ps) →
        n ∈ graph_nodes key g
        ∧ od_get key (parental_map self) (key n) = Some ps
        ∧ (∀ a, a ∈ map key ps ↔ edge key g a (key n))
        ∧ (∀ p, p ∈ ps →
             key p ∈ call_keys key (take i calls) ∨ path key g (key n) (key p)).
Proof.
  destruct (JobOrderResolver_spec key g)
    as (self & calls & Hinit & Hcalls & _ & _ & _ & _ & Hok & Hpar).
  exists self, calls. split; [done|]. split; [done|].
  destruct (JobOrderResolver_init_parental_map g self Hinit) as [Hbuild _].
  destruct (_build_parental_map_objects key g _ Hbuild) as [Hobj _].
  pose proof (call_on_graph_nodes_objects key self _ calls Hobj Hcalls) as Hobjs.
  intros i n ps Hi. destruct (Hok i n ps Hi) as [Hget Hps].
  split; [|split; [done|split; [by apply Hpar|done]]].
  rewrite Forall_forall in Hobjs.
  apply (Hobjs (n, ps)). by eapply list_elem_of_lookup_2.
Qed.

End ResolverExtras.

(** A duplicate-free list of the first [n] values of an
    enumeration, in which each value comes after its predecessor, is the
    enumeration itself. *)
Lemma chain_order_unique {A} (f : nat → A) (n : nat) :
  ∀ ks : list A,
    NoDup ks →
    (∀ k, k ∈ ks ↔ ∃ i, i < n ∧ k = f i) →
    (∀ l1 i l2, ks = l1 ++ f (S i) :: l2 → f i ∈ l1) →
    ks = f <$> seq 0 n.
Proof.
  induction n as [|m IH]; intros ks Hnd Hmem Hchain.
  - destruct ks as [|k ks]; [done|].
    destruct (proj1 (Hmem k) (list_elem_of_here _ _)) as (i & Hi & _). lia.
  - assert (Hm : f m ∈ ks) by (apply Hmem; exists m; split; [lia|done]).
    apply list_elem_of_split in Hm as (l1 & l2 & ->).
    apply NoDup_app in Hnd as (Hnd1 & Hdisj & Hnd2).
    apply NoDup_cons in Hnd2 as [Hm2 Hnd2].
    assert (Hbelow : ∀ d j, j + d = m → d ≠ 0 → f j ∈ l1).
    { induction d as [|d IHd]; intros j Hj Hd; [done|].
      destruct (decide (d = 0)) as [->|Hd0].
      - apply (Hchain l1 j l2). by replace (S j) with m by lia.
      - assert (Hsj : f (S j) ∈ l1) by (apply IHd; [lia|done]).
        apply list_elem_of_split in Hsj as (a & b & ->).
        assert (f j ∈ a); [|set_solver].
        apply (Hchain a j (b ++ f m :: l2)). by rewrite <- app_assoc. }
    assert (l2 = []) as ->.
    { destruct l2 as [|x l2]; [done|]. exfalso.
      assert (Hx : x ∈ (l1 ++ f m :: x :: l2)) by set_solver.
      apply Hmem in Hx as (i & Hi & ->).
      destruct (decide (i = m)) as [->|Hne]; [set_solver|].
      apply (Hdisj (f i)); [|set_solver].
      apply (Hbelow (m - i) i); lia. }
    rewrite seq_S, fmap_app. simpl. f_equal. apply IH; [done| |].
    + intros k. split.
      * intros Hk. assert (Hk' : k ∈ l1 ++ [f m]) by set_solver.
        apply Hmem in Hk' as (i & Hi & ->). exists i. split; [|done].
        destruct (decide (i = m)) as [->|]; [|lia].
        exfalso. apply (Hdisj (f m) Hk). set_solver.
      * intros (i & Hi & ->). apply (Hbelow (m - i) i); lia.
    + intros a i b ->. apply (Hchain a i (b ++ [f m])). by rewrite <- app_assoc.
Qed.

(** ** Objects of a list graph *)

Section ListGraphObjects.
Context {N K : Type} `{Countable K}.
Variable key : N → K.

Lemma od_objects_in_mono objs objs' (d : odict (N:=N) (list N)) :
  (∀ n, n ∈ objs → n ∈ objs') → od_objects_in objs d → od_objects_in objs' d.
Proof.
  intros Hsub Hd. unfold od_objects_in in *.
  eapply Forall_impl; [exact Hd|]. intros [n ps] [Hn Hps]. simpl in *.
  split; [by apply Hsub|]. eapply Forall_impl; [exact Hps|]. done.
Qed.

Lemma graph_nodes_objects objs (g : graph (N:=N)) n :
  od_objects_in objs g → n ∈ graph_nodes key g → n ∈ objs.
Proof.
  intros Hg. unfold graph_nodes. intros [Hn|Hn]%elem_of_app.
  - by eapply od_objects_keys.
  - apply list_elem_of_bind in Hn as (m & Hn & Hm).
    destruct (od_get key g (key m)) as [deps|] eqn:Hget; simpl in Hn.
    + by eapply od_objects_get.
    + by apply elem_of_nil in Hn.
Qed.

Lemma _convert_list_to_graph_objects (job_list : list N) :
  od_objects_in job_list (_convert_list_to_graph key job_list).
Proof.
  unfold _convert_list_to_graph.
  destruct (decide (length job_list = 1)) as [Hone|Hne].
  - destruct (job_list !! 0) as [j|] eqn:Hj; [|constructor].
    apply od_set_objects; [by eapply list_elem_of_lookup_2|constructor|constructor].
  - generalize (seq 1 (length job_list - 1)).
    assert (Hgen : ∀ (idxs : list nat) (d : odict (N:=N) (list N)),
              od_objects_in job_list d →
              od_objects_in job_list
                (fold_left
                   (λ graph_as_dict i,
                      match job_list !! (i - 1), job_list !! i with
                      | Some a, Some b => od_set key graph_as_dict a [b]
                      | _, _ => graph_as_dict
                      end) idxs d)).
    { induction idxs as [|i idxs IH]; intros d Hd; simpl; [done|].
      apply IH. destruct (job_list !! (i - 1)) as [a|] eqn:Ha; [|done].
      destruct (job_list !! i) as [b|] eqn:Hb; [|done].
      apply od_set_objects; [by eapply list_elem_of_lookup_2| |done].
      repeat constructor. by eapply list_elem_of_lookup_2. }
    intros idxs. apply Hgen. constructor.
Qed.

End ListGraphObjects.


(** ** The sequential order of a list graph *)

Section ListOrder.
Context {N K : Type} `{Countable K}.
Variable key : N → K.
Variable job_list : list N.
Hypothesis distinct : ∀ i j a b,
  job_list !! i = Some a → job_list !! j = Some b → key a = key b → i = j.

Lemma single_graph_acyclic (a : N) :
  acyclic key (_convert_list_to_graph key [a]).
Proof.
  intros x Hp. apply path_first_edge in Hp as (b & (deps & Hget & Hb) & _).
  unfold _convert_list_to_graph in Hget. simpl in Hget.
  case_decide; [|done]. injection Hget as <-. by apply elem_of_nil in Hb.
Qed.

Lemma list_graph_acyclic :
  acyclic key (_convert_list_to_graph key job_list).
Proof.
  destruct (decide (length job_list = 1)) as [Hone|Hne].
  - clear distinct. destruct job_list as [|a [|]]; try done.
    apply single_graph_acyclic.
  - by apply _convert_list_to_graph_acyclic.
Qed.

Lemma list_graph_edge i a b :
  job_list !! i = Some a → job_list !! S i = Some b →
  od_get key (_convert_list_to_graph key job_list) (key a) = Some [b].
Proof.
  intros Ha Hb. apply _convert_list_to_graph_get; [done| |].
  - apply lookup_lt_Some in Hb. lia.
  - by exists i, a, b.
Qed.

Lemma list_graph_node_keys k :
  k ∈ map key (graph_nodes key (_convert_list_to_graph key job_list))
  ↔ ∃ i a, job_list !! i = Some a ∧ k = key a.
Proof.
  split.
  - intros (w & -> & Hw)%list_elem_of_fmap.
    apply (graph_nodes_objects key job_list) in Hw;
      [|apply _convert_list_to_graph_objects].
    apply list_elem_of_lookup_1 in Hw as [i Hi]. by exists i, w.
  - intros (i & w & Hw & ->).
    pose proof (lookup_lt_Some _ _ _ Hw) as Hlt.
    destruct (decide (S i < length job_list)) as [Hnext|Hlast].
    + destruct (lookup_lt_is_Some_2 job_list (S i) Hnext) as [b Hb].
      pose proof (list_graph_edge i w b Hw Hb) as Hget.
      unfold graph_nodes. rewrite map_app. apply elem_of_app. left.
      apply od_get_keys_iff. by eexists.
    + destruct i as [|i'].
      * assert (Hone : length job_list = 1) by lia.
        unfold _convert_list_to_graph.
        destruct (decide (length job_list = 1)); [|done].
        rewrite Hw. simpl. set_solver.
      * destruct (lookup_lt_is_Some_2 job_list i') as [a Ha]; [lia|].
        pose proof (list_graph_edge i' a w Ha Hw) as Hget.
        apply list_elem_of_fmap. exists w. split; [done|].
        eapply od_get_graph_nodes; [exact Hget|set_solver].
Qed.

(** The resolver of a list graph is built, and its sequential order is the
    list itself. *)
Lemma list_graph_order :
  ∃ self,
    JobOrderResolver_init key (_convert_list_to_graph key job_list) = Return self
    ∧ find_sequential_run_order key self = Return job_list.
Proof.
  set (g := _convert_list_to_graph key job_list).
  destruct (JobOrderResolver_spec key g)
    as (self & calls & Hinit & Hcalls & _ & Horder & Hnd & Hck & Hok & Hpar).
  exists self. split; [done|]. rewrite Horder. f_equal.
  assert (Hpf : parents_first key g (map fst calls)).
  { eapply calls_ok_parents_first; [apply list_graph_acyclic|done..]. }
  assert (Hobjs : Forall (λ c : N * list N, fst c ∈ job_list) calls).
  { destruct (JobOrderResolver_init_parental_map key g _ Hinit) as [Hbuild _].
    destruct (_build_parental_map_objects key g _ Hbuild) as [Hobj _].
    eapply (call_on_graph_nodes_objects key); [|exact Hcalls].
    eapply od_objects_in_mono; [|exact Hobj].
    intros n. apply graph_nodes_objects, _convert_list_to_graph_objects. }
  set (f := λ i, key <$> job_list !! i).
  assert (Hkeys : map Some (call_keys key calls) = f <$> seq 0 (length job_list)).
  { apply (chain_order_unique f).
    - apply (NoDup_fmap_2 Some). exact Hnd.
    - intros k. split.
      + intros (k' & -> & Hk')%list_elem_of_fmap.
        apply Hck, list_graph_node_keys in Hk' as (i & a & Ha & ->).
        exists i. split; [by eapply lookup_lt_Some|]. unfold f. by rewrite Ha.
      + intros (i & Hi & ->). unfold f.
        destruct (lookup_lt_is_Some_2 job_list i Hi) as [a Ha]. rewrite Ha. simpl.
        apply list_elem_of_fmap. exists (key a). split; [done|].
        apply Hck, list_graph_node_keys. by exists i, a.
    - intros l1 i l2 Hsplit.
      apply fmap_app_inv in Hsplit as (k1 & k2' & -> & Hk2 & Hsplit).
      symmetry in Hk2.
      apply fmap_cons_inv in Hk2 as (kb & k2 & Hkb & -> & ->).
      unfold call_keys in Hsplit.
      rewrite <- (map_map fst key) in Hsplit.
      apply fmap_app_inv in Hsplit as (o1 & o2' & -> & Ho2 & Horder').
      symmetry in Ho2.
      apply fmap_cons_inv in Ho2 as (x & o2 & -> & -> & ->).
      unfold f in Hkb.
      destruct (job_list !! S i) as [b|] eqn:Hb; simpl in Hkb; [|done].
      injection Hkb as Hkb.
      destruct (lookup_lt_is_Some_2 job_list i) as [a Ha].
      { apply lookup_lt_Some in Hb. lia. }
      unfold f. rewrite Ha. simpl.
      apply list_elem_of_fmap. exists (key a). split; [done|].
      apply (Hpf o1 x o2 Horder'). rewrite <- Hkb.
      exists [b]. split; [by apply (list_graph_edge i)|]. set_solver. }
  assert (Hlen : length (map fst calls) = length job_list).
  { pose proof (f_equal length Hkeys) as Hl.
    rewrite length_map, length_fmap, length_seq in Hl.
    unfold call_keys in Hl. rewrite length_map in Hl. by rewrite length_map. }
  apply (list_eq_same_length _ _ (length job_list)); [done|done|].
  intros i x y Hi Hx Hy.
  assert (Hkx : key x = key y).
  { assert (Hl : map Some (call_keys key calls) !! i = Some (Some (key x))).
    { unfold call_keys. rewrite <- (map_map fst key).
      do 2 rewrite list_lookup_fmap. by rewrite Hx. }
    rewrite Hkeys, list_lookup_fmap, lookup_seq_lt in Hl by done.
    simpl in Hl. unfold f in Hl. rewrite Hy in Hl. simpl in Hl. congruence. }
  assert (Hin : x ∈ job_list).
  { rewrite Forall_forall in Hobjs.
    rewrite list_lookup_fmap in Hx.
    destruct (calls !! i) as [c|] eqn:Hc; simpl in Hx; [|done].
    injection Hx as <-. apply Hobjs. by eapply list_elem_of_lookup_2. }
  apply list_elem_of_lookup_1 in Hin as [j Hj].
  assert (j = i) as -> by (by eapply distinct).
  congruence.
Qed.

End ListOrder.

(** Elements of pairwise distinct identity stand at distinct positions. *)
Lemma NoDup_keys_distinct {N K} (key : N → K) (job_list : list N) :
  NoDup (map key job_list) →
  ∀ i j a b,
    job_list !! i = Some a → job_list !! j = Some b → key a = key b → i = j.
Proof.
  intros Hnd i j a b Ha Hb Hab.
  apply (NoDup_lookup (map key job_list) i j (key a)); [done|..].
  - by rewrite list_lookup_fmap, Ha.
  - by rewrite list_lookup_fmap, Hb, Hab.
Qed.

(** ** Definition: a job list becomes a chain *)

Section ListChain.
Context {N K : Type} `{Countable K}.
Variable key : N → K.

(** C3, amended.  A job list whose elements have pairwise distinct
    identities is turned into a strict linear chain: one element gives the
    single entry element -> []; for more elements the entries are exactly
    element i -> [element i+1]; the validator accepts the graph; and the
    sequential order computed for it is the list itself, so [A, B, C] for
    the list [A, B, C]. *)
Theorem job_list_graph_is_chain (job_list : list N) :
  NoDup (map key job_list) →
  let g := _convert_list_to_graph key job_list in
  (∀ a, job_list = [a] → g = [(a, [])])
  ∧ (1 < length job_list →
     ∀ x deps,
       od_get key g x = Some deps
       ↔ ∃ i a b, job_list !! i = Some a ∧ job_list !! S i = Some b
                  ∧ x = key a ∧ deps = [b])
  ∧ validate key g = Return tt
  ∧ ∃ self,
      JobOrderResolver_init key g = Return self
      ∧ find_sequential_run_order key self = Return job_list.
Proof.
  intros Hnd g.
  pose proof (NoDup_keys_distinct key job_list Hnd) as Hdistinct.
  split; [|split; [|split]].
  - intros a Ha. unfold g. by rewrite Ha.
  - intros Hlen. apply _convert_list_to_graph_get; [done|lia].
  - apply acyclic_validate_Return. by apply list_graph_acyclic.
  - by apply list_graph_order.
Qed.

End ListChain.

Lemma job_list_graph_is_chain_witness :
  NoDup (map string_key ["A"; "B"; "C"]%string)
  ∧ ∃ self,
      JobOrderResolver_init string_key
        (_convert_list_to_graph string_key ["A"; "B"; "C"]%string)
      = Return self
      ∧ find_sequential_run_order string_key self
        = Return ["A"; "B"; "C"]%string.
Proof.
  assert (Hnd : NoDup (map string_key ["A"; "B"; "C"]%string))
    by (by apply (bool_decide_unpack _)).
  split; [exact Hnd|].
  exact (proj2 (proj2 (proj2
           (job_list_graph_is_chain string_key ["A"; "B"; "C"]%string Hnd)))).
Defined.

(** C3 as the specification states it, for every non-empty list, fails
    when an element recurs: for [A, B, A, C] the entry of [A] is [C], not
    [B], and for [A, B, A] the graph is a cycle, which the validator
    rejects. *)
Lemma job_list_graph_counterexample :
  _convert_list_to_graph string_key ["A"; "B"; "A"; "C"]%string
  = [("A", ["C"]); ("B", ["A"])]%string
  ∧ od_get string_key
      (_convert_list_to_graph string_key ["A"; "B"; "A"; "C"]%string)
      "A"%string
    ≠ Some ["B"%string]
  ∧ validate string_key (_convert_list_to_graph string_key ["A"; "B"; "A"]%string)
    = Raise (Found_cyclic_dependency_on_job "A"%string).
Proof.
  split; [vm_compute; reflexivity|]. split; [vm_compute; congruence|].
  vm_compute. reflexivity.
Qed.

(** ** Workflow *)

Section WorkflowFacts.
Context {World : Type}.
Local Abbreviation Job := (Job (World:=World)).
Local Abbreviation WorkflowJob := (WorkflowJob (World:=World)).
Local Abbreviation Node := (Node (World:=World)).

Lemma _map_to_workflow_jobs_lookup (jobs : list Job) i (w : WorkflowJob) :
  _map_to_workflow_jobs jobs !! i = Some w →
  ∃ j, jobs !! i = Some j ∧ w = {| job := j; name := IndexName i |}.
Proof.
  unfold _map_to_workflow_jobs. rewrite list_lookup_imap.
  destruct (jobs !! i) as [j|]; simpl; [|done].
  intros [= <-]. by exists j.
Qed.

Lemma _map_to_workflow_jobs_distinct (jobs : list Job) i j (a b : WorkflowJob) :
  _map_to_workflow_jobs jobs !! i = Some a →
  _map_to_workflow_jobs jobs !! j = Some b →
  name a = name b → i = j.
Proof.
  intros Ha Hb.
  destruct (_map_to_workflow_jobs_lookup _ _ _ Ha) as (? & _ & ->).
  destruct (_map_to_workflow_jobs_lookup _ _ _ Hb) as (? & _ & ->).
  simpl. congruence.
Qed.

Lemma wrapped_jobs_lookup (jobs : list Job) i (n : Node) :
  map Wrapped (_map_to_workflow_jobs jobs) !! i = Some n →
  ∃ j, jobs !! i = Some j
       ∧ n = Wrapped {| job := j; name := IndexName i |}.
Proof.
  rewrite list_lookup_fmap.
  destruct (_map_to_workflow_jobs jobs !! i) as [w|] eqn:Hw; simpl; [|done].
  intros [= <-].
  destruct (_map_to_workflow_jobs_lookup _ _ _ Hw) as (j & Hj & ->).
  by exists j.
Qed.

Lemma wrapped_jobs_distinct (jobs : list Job) i j (a b : Node) :
  map Wrapped (_map_to_workflow_jobs jobs) !! i = Some a →
  map Wrapped (_map_to_workflow_jobs jobs) !! j = Some b →
  node_key a = node_key b → i = j.
Proof.
  intros Ha Hb.
  destruct (wrapped_jobs_lookup _ _ _ Ha) as (? & _ & ->).
  destruct (wrapped_jobs_lookup _ _ _ Hb) as (? & _ & ->).
  simpl. congruence.
Qed.

(** A list of nodes of pairwise distinct identity passes the validator. *)
Lemma _build_graph_distinct_list (l : list Node) :
  (∀ i j a b, l !! i = Some a → l !! j = Some b →
              node_key a = node_key b → i = j) →
  _build_graph (JobsList l) = Return (_convert_list_to_graph node_key l).
Proof.
  intros Hdistinct. unfold _build_graph.
  by rewrite (acyclic_validate_Return node_key _
                (list_graph_acyclic node_key l Hdistinct)).
Qed.

Lemma _build_graph_job_list (jobs : list Job) :
  _build_graph (JobsList (map Wrapped (_map_to_workflow_jobs jobs)))
  = Return (_convert_list_to_graph node_key
              (map Wrapped (_map_to_workflow_jobs jobs))).
Proof. apply _build_graph_distinct_list, wrapped_jobs_distinct. Qed.

Lemma Definition_init_total (jobs : DefinitionArg (World:=World)) g :
  _build_graph jobs = Return g →
  ∃ d, Definition_init jobs = Return d ∧ definition_job_graph d = g
       ∧ ∃ order, sequential_order d = Return order.
Proof.
  intros Hg. unfold Definition_init. rewrite Hg. simpl.
  destruct (JobOrderResolver_spec node_key g)
    as (self & calls & Hinit & _ & _ & Horder & _).
  rewrite Hinit. simpl. eexists. split; [done|]. split; [done|].
  by exists (map fst calls).
Qed.

Lemma constructed_order (self : Workflow (World:=World)) :
  constructed self → ∃ order, build_sequential_order self = Return order.
Proof.
  intros [jobs Hinit]. unfold Definition_init in Hinit.
  destruct (_build_graph jobs) as [g| |] eqn:Hg; simpl in Hinit; try done.
  destruct (Definition_init_total jobs g Hg) as (d & Hd & _ & order & Horder).
  unfold Definition_init in Hd. rewrite Hg in Hd. simpl in Hd.
  rewrite Hd in Hinit. injection Hinit as Hinit.
  exists order. unfold build_sequential_order. by rewrite <- Hinit.
Qed.

(** A [Definition] built from a list of nodes of pairwise distinct
    identity holds the chain of the list, and its sequential order is the
    list. *)
Lemma Definition_list_order (l : list Node) :
  (∀ i j a b, l !! i = Some a → l !! j = Some b →
              node_key a = node_key b → i = j) →
  ∃ d,
    Definition_init (JobsList l) = Return d
    ∧ definition_job_graph d = _convert_list_to_graph node_key l
    ∧ sequential_order d = Return l.
Proof.
  intros Hdistinct. unfold Definition_init.
  rewrite (_build_graph_distinct_list l Hdistinct). simpl.
  destruct (list_graph_order node_key l Hdistinct) as (self & Hinit & Horder).
  rewrite Hinit. simpl. eexists. split; [done|]. by split.
Qed.

End WorkflowFacts.

Section RunFacts.
Context {World : Type}.
Variable strptime : string → string → option datetime.
Variable strftime : datetime → string → string.

Lemma Workflow_init_constructed workflow_id (jobs : list (Job (World:=World)))
    schedule_interval self :
  Workflow_init workflow_id (JobList jobs) schedule_interval = Return self →
  constructed self.
Proof.
  unfold Workflow_init, _parse_definition.
  destruct (Definition_init _) as [d| |] eqn:Hd; simpl; try done.
  intros [= <-]. by eexists.
Qed.

(** [_parse_runtime_str]: the first format that parses wins; when neither
    does, the NameError on [rt] is what comes out. *)
Lemma _parse_runtime_str_cases (s : string) :
  _parse_runtime_str strptime s
  = match strptime s "%Y-%m-%d %H:%M:%S" with
    | Some d => Return d
    | None =>
        match strptime s "%Y-%m-%d" with
        | Some d => Return d
        | None => Raise (NameError "rt")
        end
    end.
Proof. reflexivity. Qed.

(** [run] hands the [WorkflowJob] wrappers to [_execute_job]; a wrapper has
    no [execute], so the first one ends the run. *)
Lemma run_raises_on_first_job (self : Workflow (World:=World)) now runtime
    context job order w :
  _make_job_context strptime strftime self now runtime = Return context →
  build_sequential_order self = Return (Wrapped job :: order) →
  run strptime strftime self now runtime w = (w, Raise (Exception "XXX")).
Proof. intros Hctx Horder. unfold run. by rewrite Hctx, Horder. Qed.

Lemma find_job_find (self : Workflow (World:=World)) job_id order :
  build_sequential_order self = Return order →
  find_job self job_id
  = match find (find_job_stops job_id) order with
    | Some (Wrapped job_wrapper) => Return (job job_wrapper)
    | Some (Bare _ _ _) => Raise (AttributeError "job")
    | None => Raise (ValueError ("Job " +:+ job_id +:+ " not found."))
    end.
Proof.
  intros Horder. unfold find_job. rewrite Horder. simpl. clear Horder.
  induction order as [|[jw|a s j] order IH]; simpl; [done| |done].
  destruct (decide (id (job jw) = job_id)) as [Heq|Hne].
  - by rewrite bool_decide_eq_true_2.
  - by rewrite bool_decide_eq_false_2.
Qed.

(** C6, amended.  Once the context is built, [run_job] scans the
    sequential order up to the first node that is not a [WorkflowJob] or
    that wraps a job whose id is [job_id].  If that node is a [WorkflowJob]
    and its job has [execute], the run is exactly that one call of
    [execute] with the context, and what it raises is raised; if it is an
    object put into the graph unwrapped, AttributeError is raised and the
    world is untouched; if there is no such node, the world is untouched
    and ValueError "Job ... not found." is raised. *)
Theorem run_job_first_match (self : Workflow (World:=World)) now job_id
    runtime context w :
  constructed self →
  _make_job_context strptime strftime self now runtime = Return context →
  ∃ order,
    build_sequential_order self = Return order
    ∧ match find (find_job_stops job_id) order with
      | Some (Wrapped job_wrapper) =>
          id (job job_wrapper) = job_id
          ∧ ∀ f, execute (job job_wrapper) = Some f →
              run_job strptime strftime self now job_id runtime w
              = (fst (f context w),
                 match snd (f context w) with
                 | None => Return tt
                 | Some e => Raise e
                 end)
      | Some (Bare _ _ _) =>
          run_job strptime strftime self now job_id runtime w
          = (w, Raise (AttributeError "job"))
      | None =>
          Forall (λ n, ∃ job_wrapper, n = Wrapped job_wrapper) order
          ∧ run_job strptime strftime self now job_id runtime w
            = (w, Raise (ValueError ("Job " +:+ job_id +:+ " not found.")))
      end.
Proof.
  intros Hcons Hctx. destruct (constructed_order self Hcons) as [order Horder].
  exists order. split; [done|].
  unfold run_job. rewrite Hctx, (find_job_find self job_id order Horder).
  destruct (find _ order) as [[jw|a s j]|] eqn:Hfind; [|done|].
  - apply find_some in Hfind as [_ Hid]. simpl in Hid.
    apply bool_decide_eq_true_1 in Hid. split; [done|].
    intros f Hf. unfold _execute_job. simpl. rewrite Hf.
    by destruct (f context w) as [w' [e|]].
  - split; [|done]. apply Forall_forall. intros n Hn.
    apply list_elem_of_In in Hn.
    pose proof (find_none _ _ Hfind n Hn) as Hstop.
    destruct n as [jw|a s j]; [by exists jw|done].
Qed.

(** C8, amended.  A string runtime is kept as [runtime_as_str] unchanged;
    for None and for a datetime, [runtime_as_str] is the runtime rendered
    with the first format. *)
Theorem _make_job_context_runtime_as_str (self : Workflow (World:=World)) now
    runtime_raw context :
  _make_job_context strptime strftime self now runtime_raw = Return context →
  match runtime_raw with
  | RuntimeStr s =>
      runtime_as_str context = s
      ∧ _parse_runtime_str strptime s = Return (runtime context)
  | RuntimeNone =>
      runtime context = now
      ∧ runtime_as_str context = strftime now "%Y-%m-%d %H:%M:%S"
  | RuntimeDatetime d =>
      runtime context = d
      ∧ runtime_as_str context = strftime d "%Y-%m-%d %H:%M:%S"
  end.
Proof.
  destruct runtime_raw as [|s|d]; simpl.
  - by intros [= <-].
  - destruct (_parse_runtime_str strptime s) as [r| |]; simpl; try done.
    by intros [= <-].
  - by intros [= <-].
Qed.

End RunFacts.

(** C4 on [Workflow('wf', [a, b])], both jobs with [execute]: the run
    raises Exception("XXX") at the first job, and the log stays empty. *)
Theorem run_two_jobs_executes_none :
  ∃ self,
    Workflow_init "wf" (JobList [logging_job "a"; logging_job "b"])
      DEFAULT_SCHEDULE_INTERVAL = Return self
    ∧ build_sequential_order self
      = Return [ Wrapped {| job := logging_job "a"; name := IndexName 0 |};
                 Wrapped {| job := logging_job "b"; name := IndexName 1 |} ]
    ∧ run model_strptime model_strftime self example_now RuntimeNone []
      = ([], Raise (Exception "XXX")).
Proof.
  eexists. split; [vm_compute; reflexivity|]. split; reflexivity.
Qed.

(** C5 on [Workflow('wf', [a, b])] where [a.execute] raises
    ValueError("boom"): the run raises Exception("XXX"), not the job's
    exception, and [a.execute] is never entered. *)
Theorem run_failing_job_raises_other :
  ∃ self,
    Workflow_init "wf"
      (JobList [failing_job "a" (ValueError "boom"); logging_job "b"])
      DEFAULT_SCHEDULE_INTERVAL = Return self
    ∧ run model_strptime model_strftime self example_now RuntimeNone []
      = ([], Raise (Exception "XXX"))
    ∧ _execute_job (JobObject (failing_job "a" (ValueError "boom")))
        {| runtime := example_now; runtime_as_str := "2020-06-27 15:30:45";
           workflow := "wf" |} []
      = (["a"%string], Raise (ValueError "boom")).
Proof.
  eexists. split; [vm_compute; reflexivity|]. split; reflexivity.
Qed.

(** C6 as the specification states it fails in two places: a matched job
    without [execute] is not executed (Exception("XXX") is raised), and
    with a runtime string that does not parse the error is not
    job-not-found. *)
Lemma run_job_counterexample :
  ∃ self,
    Workflow_init "wf" (JobList [logging_job "a"; legacy_job "b"])
      DEFAULT_SCHEDULE_INTERVAL = Return self
    ∧ run_job model_strptime model_strftime self example_now "b" RuntimeNone []
      = ([], Raise (Exception "XXX"))
    ∧ run_job model_strptime model_strftime self example_now "missing"
        (RuntimeStr "tomorrow") []
      ≠ ([], Raise (ValueError "Job missing not found.")).
Proof.
  eexists. split; [vm_compute; reflexivity|]. split; [reflexivity|].
  vm_compute. congruence.
Qed.

Lemma run_job_first_match_witness :
  ∃ self : Workflow (World:=list string),
    constructed self
    ∧ _make_job_context model_strptime model_strftime self example_now
        RuntimeNone
      = Return {| runtime := example_now;
                  runtime_as_str := "2020-06-27 15:30:45"; workflow := "wf" |}
    ∧ run_job model_strptime model_strftime self example_now "b" RuntimeNone []
      = (["b"%string], Return tt)
    ∧ run_job model_strptime model_strftime self example_now "c" RuntimeNone []
      = ([], Raise (ValueError "Job c not found.")).
Proof.
  assert (Hinit : Workflow_init "wf" (JobList [logging_job "a"; logging_job "b"])
                    DEFAULT_SCHEDULE_INTERVAL
                  = Return
                      (match Workflow_init "wf"
                               (JobList [logging_job "a"; logging_job "b"])
                               DEFAULT_SCHEDULE_INTERVAL with
                       | Return self => self
                       | _ => example_workflow
                       end)) by (vm_compute; reflexivity).
  eexists. split; [exact (Workflow_init_constructed _ _ _ _ Hinit)|].
  split; [vm_compute; reflexivity|].
  pose proof (run_job_first_match model_strptime model_strftime _ example_now
                "b" RuntimeNone _ [] (Workflow_init_constructed _ _ _ _ Hinit)
                eq_refl) as (order & Horder & Hb).
  pose proof (run_job_first_match model_strptime model_strftime _ example_now
                "c" RuntimeNone _ [] (Workflow_init_constructed _ _ _ _ Hinit)
                eq_refl) as (order' & Horder' & Hc).
  vm_compute in Horder. injection Horder as <-.
  vm_compute in Horder'. injection Horder' as <-.
  split; [exact (proj2 Hb _ eq_refl)|exact (proj2 Hc)].
Defined.

(** C7 on a string that matches neither format: what is raised is the
    NameError of the unbound name [rt], not the ValueError the code builds. *)
Theorem _make_job_context_unparseable :
  _parse_runtime_str model_strptime "tomorrow" = Raise (NameError "rt")
  ∧ _make_job_context model_strptime model_strftime example_workflow
      example_now (RuntimeStr "tomorrow")
    = Raise (NameError "rt").
Proof. split; reflexivity. Qed.

(** C8 as the specification states it fails on a date-only string:
    [runtime_as_str] is the string itself, not the runtime rendered with the
    first format. *)
Lemma runtime_as_str_counterexample :
  ∃ context,
    _make_job_context model_strptime model_strftime example_workflow
      example_now (RuntimeStr "2020-06-27") = Return context
    ∧ runtime_as_str context = "2020-06-27"%string
    ∧ model_strftime (runtime context) "%Y-%m-%d %H:%M:%S"
      = "2020-06-27 00:00:00"%string
    ∧ runtime_as_str context
      ≠ model_strftime (runtime context) "%Y-%m-%d %H:%M:%S".
Proof.
  eexists. split; [vm_compute; reflexivity|]. split; [reflexivity|].
  split; [vm_compute; reflexivity|]. vm_compute. congruence.
Qed.

Lemma _make_job_context_runtime_as_str_witness :
  _make_job_context model_strptime model_strftime example_workflow example_now
    (RuntimeStr "2020-06-27 15:00:00")
  = Return {| runtime := {| toordinal := 737603; hour := 15; minute := 0;
                            second := 0; microsecond := 0 |};
              runtime_as_str := "2020-06-27 15:00:00";
              workflow := "example" |}
  ∧ runtime_as_str
      {| runtime := {| toordinal := 737603; hour := 15; minute := 0;
                       second := 0; microsecond := 0 |};
         runtime_as_str := "2020-06-27 15:00:00";
         workflow := "example" |}
    = "2020-06-27 15:00:00"%string.
Proof.
  assert (Hctx : _make_job_context model_strptime model_strftime
                   example_workflow example_now
                   (RuntimeStr "2020-06-27 15:00:00")
                 = Return {| runtime := {| toordinal := 737603; hour := 15;
                                           minute := 0; second := 0;
                                           microsecond := 0 |};
                             runtime_as_str := "2020-06-27 15:00:00";
                             workflow := "example" |})
    by (vm_compute; reflexivity).
  split; [exact Hctx|].
  exact (proj1 (_make_job_context_runtime_as_str model_strptime model_strftime
                  example_workflow example_now _ _ Hctx)).
Defined.

(** ** Start-time helpers *)

Lemma get_timezone_offset_seconds_mod (utcoffset : Z) :
  get_timezone_offset_seconds utcoffset = (utcoffset mod 86400)%Z.
Proof.
  unfold get_timezone_offset_seconds, timedelta_new. simpl.
  by rewrite Z.add_0_r.
Qed.

(** Subtracting [s] whole seconds, [0 <= s <= 86400], from a timestamp
    with no microseconds. *)
Lemma datetime_sub_seconds (d : datetime) (s : Z) :
  valid_datetime d → microsecond d = 0%Z → (0 ≤ s ≤ 86400)%Z →
  let target := (to_microseconds d - s * 1000000)%Z in
  if decide (86400 * 1000000 ≤ target)%Z then
    ∃ r, datetime_sub d (timedelta_new 0 s 0) = Return r
         ∧ valid_datetime r ∧ to_microseconds r = target
  else datetime_sub d (timedelta_new 0 s 0) = Raise OverflowError.
Proof.
  intros (Hord & Hh & Hm & Hs & Hus) Hzero Hsec.
  unfold datetime_sub, datetime_add, timedelta_neg, timedelta_new,
    to_microseconds, valid_datetime, _MAXORDINAL in *.
  cbn [days seconds microseconds toordinal hour minute second microsecond].
  rewrite Hzero.
  repeat match goal with
         | |- context [(0 / ?x)%Z] => change (0 / x)%Z with 0%Z
         | |- context [(0 mod ?x)%Z] => change (0 mod x)%Z with 0%Z
         | |- context [(- 0)%Z] => change (- 0)%Z with 0%Z
         end.
  rewrite !Z.add_0_r.
  set (sod := (hour d * 3600 + minute d * 60 + second d)%Z).
  assert (0 ≤ sod < 86400)%Z by (unfold sod; lia).
  set (q := (s / 86400)%Z). set (m := (s mod 86400)%Z).
  assert (Hqm : (s = 86400 * q + m ∧ 0 ≤ m < 86400)%Z).
  { unfold q, m. pose proof (Z.div_mod s 86400). pose proof (Z.mod_pos_bound s 86400).
    lia. }
  set (nq := ((- m) / 86400)%Z). set (nm := ((- m) mod 86400)%Z).
  assert (Hn : (- m = 86400 * nq + nm ∧ 0 ≤ nm < 86400)%Z).
  { unfold nq, nm. pose proof (Z.div_mod (- m) 86400).
    pose proof (Z.mod_pos_bound (- m) 86400). lia. }
  set (tq := ((sod + nm) / 86400)%Z). set (tm := ((sod + nm) mod 86400)%Z).
  assert (Ht : (sod + nm = 86400 * tq + tm ∧ 0 ≤ tm < 86400)%Z).
  { unfold tq, tm. pose proof (Z.div_mod (sod + nm) 86400).
    pose proof (Z.mod_pos_bound (sod + nm) 86400). lia. }
  set (day := (toordinal d + (- (0 + q) + nq) + tq)%Z).
  assert (Hh' : (tm = 3600 * (tm / 3600) + tm mod 3600 ∧ 0 ≤ tm mod 3600 < 3600)%Z).
  { pose proof (Z.div_mod tm 3600). pose proof (Z.mod_pos_bound tm 3600). lia. }
  assert (Hm' : (tm mod 3600 = 60 * (tm mod 3600 / 60) + (tm mod 3600) mod 60
                 ∧ 0 ≤ (tm mod 3600) mod 60 < 60)%Z).
  { pose proof (Z.div_mod (tm mod 3600) 60).
    pose proof (Z.mod_pos_bound (tm mod 3600) 60). lia. }
  assert (Hday : (day * 86400 + tm = toordinal d * 86400 + sod - s)%Z)
    by (unfold day; lia).
  change (0 mod 1000000)%Z with 0%Z.
  match goal with
  | |- if decide ?P then _ else _ => destruct (decide P) as [Hge|Hlt]
  end.
  - assert (0 < day ≤ 3652059)%Z by (unfold sod in *; lia).
    destruct (decide (0 < day ≤ 3652059)%Z) as [_|]; [|done].
    eexists. split; [reflexivity|].
    cbn [days seconds microseconds toordinal hour minute second microsecond].
    unfold sod in *. split; [|lia]. repeat split; lia.
  - assert (¬ (0 < day ≤ 3652059)%Z) by (unfold sod in *; lia).
    destruct (decide (0 < day ≤ 3652059)%Z) as [|_]; done.
Qed.

(** Adding whole days leaves the time of day alone. *)
Lemma datetime_add_days (d : datetime) (n : Z) :
  valid_datetime d →
  datetime_add d {| days := n; seconds := 0; microseconds := 0 |}
  = if decide (0 < toordinal d + n ≤ _MAXORDINAL)%Z then
      Return {| toordinal := toordinal d + n; hour := hour d;
                minute := minute d; second := second d;
                microsecond := microsecond d |}
    else Raise OverflowError.
Proof.
  intros (Hord & Hh & Hm & Hs & Hus).
  unfold datetime_add, timedelta_new, _MAXORDINAL in *.
  cbn [days seconds microseconds].
  set (sod := (hour d * 3600 + minute d * 60 + second d)%Z).
  assert (Hsod : (0 ≤ sod < 86400)%Z) by (unfold sod; lia).
  rewrite !Z.add_0_r.
  rewrite (Z.div_small (microsecond d) 1000000) by lia.
  rewrite (Z.mod_small (microsecond d) 1000000) by lia.
  rewrite !Z.add_0_r.
  rewrite (Z.div_small sod 86400) by lia.
  rewrite (Z.mod_small sod 86400) by lia.
  rewrite !Z.add_0_r.
  assert (Hhour : (sod / 3600 = hour d)%Z).
  { symmetry. apply (Z.div_unique sod 3600 (hour d) (minute d * 60 + second d));
      unfold sod; lia. }
  assert (Hrem : (sod mod 3600 = minute d * 60 + second d)%Z).
  { symmetry. apply (Z.mod_unique sod 3600 (hour d) (minute d * 60 + second d));
      unfold sod; lia. }
  assert (Hmin : ((minute d * 60 + second d) / 60 = minute d)%Z).
  { symmetry. apply (Z.div_unique _ 60 (minute d) (second d)); lia. }
  assert (Hsec : ((minute d * 60 + second d) mod 60 = second d)%Z).
  { symmetry. apply (Z.mod_unique _ 60 (minute d) (second d)); lia. }
  rewrite Hrem, Hhour, Hmin, Hsec. done.
Qed.

(** C9, amended.  With the local zone at or east of UTC,
    [hourly_start_time] clears the microseconds only (minutes and seconds
    stay) and subtracts the offset; [daily_start_time] returns midnight of
    the day before, whatever the offset.  Either raises OverflowError when
    the result would fall before year 1. *)
Theorem start_time_helpers (utcoffset : Z) (start_time : datetime) :
  valid_datetime start_time →
  (0 ≤ utcoffset < 86400)%Z →
  (let target :=
     (to_microseconds start_time - microsecond start_time
      - utcoffset * 1000000)%Z in
   if decide (86400 * 1000000 ≤ target)%Z then
     ∃ r, hourly_start_time utcoffset start_time = Return r
          ∧ valid_datetime r ∧ to_microseconds r = target
   else hourly_start_time utcoffset start_time = Raise OverflowError)
  ∧ daily_start_time start_time
    = (if decide (2 ≤ toordinal start_time)%Z then
         Return {| toordinal := toordinal start_time - 1; hour := 0;
                   minute := 0; second := 0; microsecond := 0 |}
       else Raise OverflowError).
Proof.
  intros Hvalid Heast. split.
  - unfold hourly_start_time. rewrite get_timezone_offset_seconds_mod.
    rewrite (Z.mod_small utcoffset 86400) by lia.
    set (d0 := {| toordinal := toordinal start_time; hour := hour start_time;
                  minute := minute start_time; second := second start_time;
                  microsecond := 0 |}).
    assert (Hv0 : valid_datetime d0).
    { unfold valid_datetime in *. simpl. lia. }
    assert (Hoff : (0 ≤ utcoffset ≤ 86400)%Z) by lia.
    assert (Hsub := datetime_sub_seconds d0 utcoffset Hv0 eq_refl Hoff).
    assert (Hpos : to_microseconds d0
                   = (to_microseconds start_time - microsecond start_time)%Z).
    { unfold to_microseconds. simpl. lia. }
    cbv zeta in Hsub |- *. rewrite Hpos in Hsub. exact Hsub.
  - unfold daily_start_time, datetime_sub.
    change (timedelta_neg (timedelta_new 0 (24 * 3600) 0))
      with {| days := -1; seconds := 0; microseconds := 0 |}.
    rewrite datetime_add_days.
    2:{ unfold valid_datetime in *. simpl. lia. }
    cbn [toordinal hour minute second microsecond].
    destruct Hvalid as (Hord & _). unfold _MAXORDINAL in *.
    destruct (decide (2 ≤ toordinal start_time)%Z),
             (decide (0 < toordinal start_time + -1 ≤ 3652059)%Z);
      try lia; try done.
Qed.

Lemma start_time_helpers_witness :
  valid_datetime example_now
  ∧ (0 ≤ 7200 < 86400)%Z
  ∧ (∃ r, hourly_start_time 7200 example_now = Return r
          ∧ valid_datetime r
          ∧ to_microseconds r
            = (to_microseconds example_now - microsecond example_now
               - 7200 * 1000000)%Z)
  ∧ daily_start_time example_now
    = Return {| toordinal := 737602; hour := 0; minute := 0; second := 0;
                microsecond := 0 |}.
Proof.
  assert (Hvalid : valid_datetime example_now)
    by (vm_compute; intuition congruence).
  assert (Heast : (0 ≤ 7200 < 86400)%Z) by lia.
  split; [exact Hvalid|]. split; [exact Heast|].
  exact (start_time_helpers 7200 example_now Hvalid Heast).
Defined.

(** C9 as the specification states it fails on 2020-06-27 15:30:45, the
    zone two hours east of UTC: [hourly_start_time] keeps the minutes and
    seconds, and [daily_start_time] goes back a whole day, not two hours. *)
Lemma start_time_helpers_counterexample :
  valid_datetime example_now
  ∧ hourly_start_time 7200 example_now
    = Return {| toordinal := 737603; hour := 13; minute := 30; second := 45;
                microsecond := 0 |}
  ∧ spec_hourly_start_time 7200 example_now
    = Return {| toordinal := 737603; hour := 13; minute := 0; second := 0;
                microsecond := 0 |}
  ∧ hourly_start_time 7200 example_now ≠ spec_hourly_start_time 7200 example_now
  ∧ daily_start_time example_now
    = Return {| toordinal := 737602; hour := 0; minute := 0; second := 0;
                microsecond := 0 |}
  ∧ spec_daily_start_time 7200 example_now
    = Return {| toordinal := 737602; hour := 22; minute := 0; second := 0;
                microsecond := 0 |}
  ∧ daily_start_time example_now ≠ spec_daily_start_time 7200 example_now.
Proof.
  split; [vm_compute; intuition congruence|].
  repeat split; try reflexivity; vm_compute; congruence.
Qed.
(** ** Workflows built from a job list *)

Section ListWorkflow.
Context {World : Type}.
Local Abbreviation Job := (Job (World:=World)).
Local Abbreviation WorkflowJob := (WorkflowJob (World:=World)).

Lemma _map_to_workflow_jobs_length (jobs : list Job) :
  length (_map_to_workflow_jobs jobs) = length jobs.
Proof. unfold _map_to_workflow_jobs. apply length_imap. Qed.

Lemma _map_to_workflow_jobs_job (jobs : list Job) :
  map job (_map_to_workflow_jobs jobs) = jobs.
Proof.
  unfold _map_to_workflow_jobs. apply list_eq. intros i.
  rewrite list_lookup_fmap, list_lookup_imap.
  by destruct (jobs !! i).
Qed.

Lemma Workflow_job_list_order (jobs : list Job) (wid interval : string) :
  ∃ self,
    Workflow_init wid (JobList jobs) interval = Return self
    ∧ build_sequential_order self
      = Return (map Wrapped (_map_to_workflow_jobs jobs))
    ∧ map job (_map_to_workflow_jobs jobs) = jobs.
Proof.
  destruct (Definition_list_order (map Wrapped (_map_to_workflow_jobs jobs))
              (wrapped_jobs_distinct jobs))
    as (d & Hd & _ & Horder).
  unfold Workflow_init, _parse_definition. rewrite Hd. simpl.
  eexists. split; [done|]. split; [exact Horder|].
  apply _map_to_workflow_jobs_job.
Qed.

(** X3.  A workflow built from a job list, of any length and with
    whatever repetitions, is always constructed, and its sequential order
    is the list itself: job [i] wrapped under the name [i], in list
    order. *)
Theorem job_list_sequential_order (jobs : list Job) (wid interval : string) :
  ∃ self,
    Workflow_init wid (JobList jobs) interval = Return self
    ∧ build_sequential_order self
      = Return (map Wrapped (_map_to_workflow_jobs jobs))
    ∧ map job (_map_to_workflow_jobs jobs) = jobs.
Proof. apply Workflow_job_list_order. Qed.

End ListWorkflow.
(** ** Running and looking up jobs *)

Lemma find_fmap {A B} (f : A → B) (P : B → bool) (l : list A) :
  find P (map f l) = f <$> find (λ x, P (f x)) l.
Proof.
  induction l as [|x l IH]; simpl; [done|]. by destruct (P (f x)).
Qed.

Section OrderNodes.
Context {N K : Type} `{Countable K}.
Variable key : N → K.

(** The sequential order holds node objects of the graph only. *)
Lemma find_sequential_run_order_nodes (g : graph (N:=N)) self order :
  JobOrderResolver_init key g = Return self →
  find_sequential_run_order key self = Return order →
  ∀ n, n ∈ order → n ∈ graph_nodes key g.
Proof.
  intros Hinit Horder n Hn.
  destruct (JobOrderResolver_spec key g)
    as (self' & calls & Hinit' & Hcalls & _ & Horder' & _).
  rewrite Hinit in Hinit'. injection Hinit' as <-.
  rewrite Horder in Horder'. injection Horder' as ->.
  destruct (JobOrderResolver_init_parental_map key g self Hinit) as [Hbuild _].
  destruct (_build_parental_map_objects key g _ Hbuild) as [Hobj _].
  pose proof (call_on_graph_nodes_objects key self _ calls Hobj Hcalls) as Hobjs.
  rewrite Forall_forall in Hobjs.
  apply list_elem_of_fmap in Hn as (c & -> & Hc). by apply Hobjs.
Qed.

End OrderNodes.

Section RunExtras.
Context {World : Type}.
Variable strptime : string → string → option datetime.
Variable strftime : datetime → string → string.
Local Abbreviation Job := (Job (World:=World)).
Local Abbreviation Node := (Node (World:=World)).
Local Abbreviation Workflow := (Workflow (World:=World)).
Local Abbreviation DefinitionArg := (DefinitionArg (World:=World)).

(** X4.  In a workflow built from a job list, [find_job] returns the first
    job of the list whose id is [job_id] and raises ValueError when the
    list has none; [run_job], once the context is built, hands exactly that
    job to [_execute_job] and otherwise leaves the world untouched. *)
Theorem job_list_find_job (jobs : list Job) (wid interval : string) job_id :
  ∃ self,
    Workflow_init wid (JobList jobs) interval = Return self
    ∧ find_job self job_id
      = match find (λ j, bool_decide (id j = job_id)) jobs with
        | Some j => Return j
        | None => Raise (ValueError ("Job " +:+ job_id +:+ " not found."))
        end
    ∧ ∀ now runtime context w,
        _make_job_context strptime strftime self now runtime = Return context →
        run_job strptime strftime self now job_id runtime w
        = match find (λ j, bool_decide (id j = job_id)) jobs with
          | Some j => _execute_job (JobObject j) context w
          | None =>
              (w, Raise (ValueError ("Job " +:+ job_id +:+ " not found.")))
          end.
Proof.
  destruct (Workflow_job_list_order jobs wid interval)
    as (self & Hself & Horder & Hjobs).
  exists self. split; [done|].
  assert (Hfind : find_job self job_id
                  = match find (λ j, bool_decide (id j = job_id)) jobs with
                    | Some j => Return j
                    | None =>
                        Raise (ValueError ("Job " +:+ job_id +:+ " not found."))
                    end).
  { rewrite (find_job_find self job_id _ Horder).
    rewrite find_fmap. rewrite <- Hjobs at 2. rewrite find_fmap.
    by destruct (find _ (_map_to_workflow_jobs jobs)). }
  split; [done|].
  intros now runtime context w Hctx. unfold run_job. rewrite Hctx, Hfind.
  by destruct (find _ jobs).
Qed.

(** The nodes a [Definition] argument puts into the graph. *)
Lemma assembled_graph_objects (jobs : DefinitionArg) :
  wraps_all jobs →
  ∃ objs, Forall (λ n : Node, ∃ w, n = Wrapped w) objs
          ∧ od_objects_in objs (assembled_graph jobs).
Proof.
  destruct jobs as [l|items]; simpl.
  - intros Hl. exists l. split; [done|]. apply _convert_list_to_graph_objects.
  - intros _.
    set (objs := items ≫= λ item : JobLike (World:=World) * list JobLike,
                   Wrapped (_map_to_workflow_job (fst item))
                   :: map (λ tj, Wrapped (_map_to_workflow_job tj)) (snd item)).
    exists objs. split.
    + apply Forall_forall. intros n (item & Hn & _)%list_elem_of_bind.
      apply elem_of_cons in Hn as [->|Hn]; [by eexists|].
      apply list_elem_of_fmap in Hn as (tj & -> & _). by eexists.
    + assert (Hgen : ∀ (its : list (JobLike (World:=World) * list JobLike))
                       (d : odict (N:=Node) (list Node)),
                (∀ item, item ∈ its → item ∈ items) →
                od_objects_in objs d →
                od_objects_in objs
                  (fold_left
                     (λ d '(source_job, target_jobs),
                        od_set node_key d
                          (Wrapped (_map_to_workflow_job source_job))
                          (map (λ tj, Wrapped (_map_to_workflow_job tj))
                             target_jobs))
                     its d)).
      { induction its as [|[s ts] its IH]; intros d Hsub Hd; simpl; [done|].
        apply IH; [set_solver|].
        assert (Hin : (s, ts) ∈ items) by set_solver.
        apply od_set_objects; [| |done].
        - apply list_elem_of_bind. exists (s, ts). split; [|done]. set_solver.
        - apply Forall_forall. intros n Hn.
          apply list_elem_of_bind. exists (s, ts). split; [|done]. set_solver. }
      apply Hgen; [done|constructor].
Qed.

Lemma _build_graph_assembled (jobs : DefinitionArg) :
  _build_graph jobs
  = match validate node_key (assembled_graph jobs) with
    | Return _ => Return (assembled_graph jobs)
    | Raise (Found_cyclic_dependency_on_job job) =>
        Raise (InvalidJobGraphError
                 ("Found cyclic dependency on job " +:+ Node_str job))
    | OutOfFuel => OutOfFuel
    end.
Proof. by destruct jobs. Qed.

Lemma Definition_init_parts (jobs : DefinitionArg) d :
  Definition_init jobs = Return d →
  definition_job_graph d = assembled_graph jobs
  ∧ acyclic node_key (assembled_graph jobs)
  ∧ JobOrderResolver_init node_key (assembled_graph jobs)
    = Return (job_order_resolver d).
Proof.
  unfold Definition_init. rewrite _build_graph_assembled.
  destruct (validate node_key (assembled_graph jobs)) as [[]|[j]|] eqn:Hv;
    simpl; try done.
  destruct (JobOrderResolver_init node_key (assembled_graph jobs))
    as [r| |] eqn:Hr; simpl; try done.
  intros [= <-]. simpl. split; [done|]. split; [|done].
  by apply validate_Return_acyclic.
Qed.

(** X5.  [run] on a workflow whose definition was built from a dict or
    from a list of [WorkflowJob]s (as [Workflow] builds it from a job
    list) never reaches a job's [execute]: every node of the sequential
    order is a [WorkflowJob], and for a runtime that yields a context the
    run leaves the world as it found it, returning normally when the order
    is empty and raising Exception("XXX") at the first node otherwise. *)
Theorem run_leaves_world_untouched (self : Workflow) (jobs : DefinitionArg)
    now runtime context w :
  Definition_init jobs = Return (definition self) →
  wraps_all jobs →
  _make_job_context strptime strftime self now runtime = Return context →
  ∃ order,
    build_sequential_order self = Return order
    ∧ Forall (λ n, ∃ job_wrapper, n = Wrapped job_wrapper) order
    ∧ run strptime strftime self now runtime w
      = (w, match order with
            | [] => Return tt
            | _ :: _ => Raise (Exception "XXX")
            end).
Proof.
  intros Hinit Hwraps Hctx.
  destruct (constructed_order self (ex_intro _ jobs Hinit)) as [order Horder].
  exists order. split; [done|].
  assert (Hall : Forall (λ n : Node, ∃ job_wrapper, n = Wrapped job_wrapper)
                   order).
  { destruct (assembled_graph_objects jobs Hwraps) as (objs & Hobjs & Hin).
    destruct (Definition_init_parts jobs _ Hinit) as (_ & _ & Hres).
    apply Forall_forall. intros n Hn.
    rewrite Forall_forall in Hobjs. apply Hobjs.
    eapply (graph_nodes_objects node_key); [exact Hin|].
    by eapply (find_sequential_run_order_nodes node_key). }
  split; [done|]. destruct order as [|n order].
  - unfold run. by rewrite Hctx, Horder.
  - apply Forall_cons in Hall as [[jw ->] _].
    by eapply run_raises_on_first_job.
Qed.

End RunExtras.

Lemma run_leaves_world_untouched_witness :
  ∃ self : Workflow (World:=list string),
    Definition_init (JobsDict [(AJob (logging_job "a"), [AJob (logging_job "b")])])
    = Return (definition self)
    ∧ wraps_all (JobsDict [(AJob (logging_job "a"), [AJob (logging_job "b")])])
    ∧ _make_job_context model_strptime model_strftime self example_now
        RuntimeNone
      = Return {| runtime := example_now;
                  runtime_as_str := "2020-06-27 15:30:45"; workflow := "wf" |}
    ∧ run model_strptime model_strftime self example_now RuntimeNone ["x"%string]
      = (["x"%string], Raise (Exception "XXX")).
Proof.
  pose (d := match Definition_init
                     (JobsDict [(AJob (logging_job "a"), [AJob (logging_job "b")])])
             with
             | Return d => d
             | _ => definition example_workflow
             end).
  assert (Hinit : Definition_init
                    (JobsDict [(AJob (logging_job "a"), [AJob (logging_job "b")])])
                  = Return d) by (vm_compute; reflexivity).
  exists {| workflow_id := "wf"; definition := d;
            schedule_interval := DEFAULT_SCHEDULE_INTERVAL |}.
  split; [exact Hinit|]. split; [exact I|].
  split; [vm_compute; reflexivity|].
  destruct (run_leaves_world_untouched model_strptime model_strftime
              {| workflow_id := "wf"; definition := d;
                 schedule_interval := DEFAULT_SCHEDULE_INTERVAL |}
              _ example_now RuntimeNone _ ["x"%string] Hinit I eq_refl)
    as (order & Horder & _ & Hrun).
  vm_compute in Horder. injection Horder as <-. exact Hrun.
Defined.

(** ** Definition: assembling and validating the graph *)

Section AssignFacts.
Context {N K : Type} `{Countable K}.
Variable key : N → K.

Lemma find_snoc {A} (P : A → bool) (l : list A) (x : A) :
  find P (l ++ [x])
  = match find P l with Some y => Some y | None => if P x then Some x else None end.
Proof.
  induction l as [|y l IH]; simpl; [done|]. by destruct (P y).
Qed.

Lemma od_get_assignments {V} (items : list (N * V)) : ∀ (d : odict V) k,
  od_get key (fold_left (λ d item, od_set key d (fst item) (snd item)) items d) k
  = match last_assigned key items k with
    | Some v => Some v
    | None => od_get key d k
    end.
Proof.
  unfold last_assigned.
  induction items as [|[n v] items IH]; intros d k; simpl; [done|].
  rewrite IH, find_snoc. simpl.
  destruct (find _ (rev items)) as [[m w]|]; simpl; [done|].
  rewrite od_get_set. unfold bool_decide.
  destruct (decide_rel eq (key n) k) as [Heq|Hne];
    destruct (decide (k = key n)); simpl; congruence.
Qed.

Lemma od_keys_assignments_NoDup {V} (items : list (N * V)) : ∀ d : odict V,
  NoDup (map key (od_keys d)) →
  NoDup (map key (od_keys
           (fold_left (λ d item, od_set key d (fst item) (snd item)) items d))).
Proof.
  induction items as [|[n v] items IH]; intros d Hd; simpl; [done|].
  apply IH. by apply od_set_NoDup.
Qed.

End AssignFacts.

Section DefinitionExtras.
Context {World : Type}.
Local Abbreviation Job := (Job (World:=World)).
Local Abbreviation Node := (Node (World:=World)).
Local Abbreviation DefinitionArg := (DefinitionArg (World:=World)).

(** X6.  [Definition(jobs)] is constructed exactly when the assembled graph
    is acyclic: then it holds that graph, and its sequential order lists
    every node once, parents first; otherwise InvalidJobGraph is raised
    with the message "Found cyclic dependency on job " followed by [str] of
    a node that lies on a cycle (for a [WorkflowJob],
    "WorkflowJob{job=..., name=...}"). *)
Theorem Definition_init_iff_acyclic (jobs : DefinitionArg) :
  (acyclic node_key (assembled_graph jobs) →
   ∃ d order,
     Definition_init jobs = Return d
     ∧ definition_job_graph d = assembled_graph jobs
     ∧ sequential_order d = Return order
     ∧ NoDup (map node_key order)
     ∧ (∀ k, k ∈ map node_key order
             ↔ k ∈ map node_key (graph_nodes node_key (assembled_graph jobs)))
     ∧ parents_first node_key (assembled_graph jobs) order)
  ∧ (¬ acyclic node_key (assembled_graph jobs) →
     ∃ j : Node,
       Definition_init jobs
       = Raise (InvalidJobGraphError
                  ("Found cyclic dependency on job " +:+ Node_str j))
       ∧ path node_key (assembled_graph jobs) (node_key j) (node_key j)).
Proof.
  unfold Definition_init. rewrite _build_graph_assembled.
  pose proof (validate_spec node_key (assembled_graph jobs)) as Hspec.
  split.
  - intros Hac. rewrite (acyclic_validate_Return node_key _ Hac). simpl.
    destruct (JobOrderResolver_spec node_key (assembled_graph jobs))
      as (self & calls & Hinit & _ & _ & Horder & Hnd & Hck & Hok & Hpar).
    rewrite Hinit. simpl. eexists _, (map fst calls).
    split; [done|]. split; [done|]. split; [done|].
    assert (Hkeys : map node_key (map fst calls) = call_keys node_key calls).
    { unfold call_keys. by rewrite map_map. }
    rewrite Hkeys. split; [done|]. split; [done|].
    by eapply calls_ok_parents_first.
  - intros Hcyc.
    destruct (validate node_key (assembled_graph jobs)) as [[]|[j]|];
      [|by exists j|done].
    by destruct Hcyc.
Qed.

(** X7.  In the graph assembled from a dict, no two entries have the same
    name, and the entry found under a name is the wrapped target list of
    the last item whose source wraps to that name (a job is wrapped under
    its id, so two sources with one id share an entry and the later one
    wins); a key no source wraps to has no entry. *)
Theorem dict_graph_last_item_wins (items : list (JobLike * list JobLike)) k :
  NoDup (map node_key (od_keys (assembled_graph (JobsDict items))))
  ∧ od_get node_key (assembled_graph (JobsDict items)) k
    = last_assigned node_key
        (map (λ item : JobLike (World:=World) * list JobLike,
                (Wrapped (_map_to_workflow_job (fst item)),
                 map (λ tj, Wrapped (_map_to_workflow_job tj)) (snd item)))
           items) k.
Proof.
  assert (Hfold : assembled_graph (JobsDict items)
                  = fold_left
                      (λ d (item : Node * list Node),
                         od_set node_key d (fst item) (snd item))
                      (map (λ item : JobLike (World:=World) * list JobLike,
                              (Wrapped (_map_to_workflow_job (fst item)),
                               map (λ tj, Wrapped (_map_to_workflow_job tj))
                                 (snd item))) items)
                      []).
  { simpl. generalize ([] : odict (N:=Node) (list Node)).
    induction items as [|[s ts] items IH]; intros d; simpl; [done|].
    apply IH. }
  rewrite Hfold. split.
  - apply od_keys_assignments_NoDup. constructor.
  - rewrite od_get_assignments. by destruct (last_assigned _ _ _).
Qed.

End DefinitionExtras.

(** ** Definition._convert_list_to_graph on any list *)

Section ConvertListFacts.
Context {N K : Type} `{Countable K}.
Variable key : N → K.
Variable job_list : list N.

Lemma convert_fold_get k :
  k < length job_list →
  ∀ x deps,
    od_get key
      (fold_left
         (λ graph_as_dict i,
            match job_list !! (i - 1), job_list !! i with
            | Some a, Some b => od_set key graph_as_dict a [b]
            | _, _ => graph_as_dict
            end)
         (seq 1 k) []) x = Some deps
    ↔ ∃ i a b, i < k ∧ job_list !! i = Some a ∧ job_list !! S i = Some b
               ∧ x = key a ∧ deps = [b]
               ∧ ∀ j a', i < j → j < k → job_list !! j = Some a' → key a' ≠ x.
Proof.
  induction k as [|k IH]; intros Hk x deps.
  - simpl. split; [done|]. intros (i & ? & ? & ? & _). lia.
  - rewrite seq_S, fold_left_app. simpl. rewrite Nat.sub_0_r.
    destruct (lookup_lt_is_Some_2 job_list k) as [a Ha]; [lia|].
    destruct (lookup_lt_is_Some_2 job_list (S k)) as [b Hb]; [lia|].
    rewrite Ha, Hb, od_get_set.
    specialize (IH ltac:(lia) x deps). case_decide as Hx.
    + split.
      * intros [= <-]. exists k, a, b. repeat split; [lia|done..|].
        intros j a' Hj Hj'. lia.
      * intros (i & a' & b' & Hi & Ha' & Hb' & -> & -> & Hlast).
        destruct (decide (i = k)) as [->|Hne]; [congruence|].
        exfalso. apply (Hlast k a); [lia|lia|done|done].
    + rewrite IH. split.
      * intros (i & a' & b' & Hi & Ha' & Hb' & -> & -> & Hlast).
        exists i, a', b'. repeat split; [lia|done..|].
        intros j c Hj Hj' Hc. destruct (decide (j = k)) as [->|Hjk].
        -- congruence.
        -- apply (Hlast j c); [done|lia|done].
      * intros (i & a' & b' & Hi & Ha' & Hb' & -> & -> & Hlast).
        destruct (decide (i = k)) as [->|Hne]; [congruence|].
        exists i, a', b'. repeat split; [lia|done..|].
        intros j c Hj Hj'. apply Hlast; [done|lia].
Qed.

Lemma convert_fold_NoDup (idxs : list nat) : ∀ d : odict (N:=N) (list N),
  NoDup (map key (od_keys d)) →
  NoDup (map key (od_keys
           (fold_left
              (λ graph_as_dict i,
                 match job_list !! (i - 1), job_list !! i with
                 | Some a, Some b => od_set key graph_as_dict a [b]
                 | _, _ => graph_as_dict
                 end) idxs d))).
Proof.
  induction idxs as [|i idxs IH]; intros d Hd; simpl; [done|].
  apply IH. destruct (job_list !! (i - 1)); [|done].
  destruct (job_list !! i); [|done]. by apply od_set_NoDup.
Qed.

(** X8.  [_convert_list_to_graph] on any list, repeated elements
    included: the result has no two entries of equal identity and holds
    objects of the list only; an empty list gives the empty graph and a
    one-element list the entry element -> []; otherwise the entry under an
    identity is [next element] for the last position, short of the final
    one, at which that identity stands. *)
Theorem _convert_list_to_graph_entries :
  NoDup (map key (od_keys (_convert_list_to_graph key job_list)))
  ∧ od_objects_in job_list (_convert_list_to_graph key job_list)
  ∧ (job_list = [] → _convert_list_to_graph key job_list = [])
  ∧ (∀ a, job_list = [a] → _convert_list_to_graph key job_list = [(a, [])])
  ∧ (length job_list ≠ 1 →
     ∀ x deps,
       od_get key (_convert_list_to_graph key job_list) x = Some deps
       ↔ ∃ i a b,
           job_list !! i = Some a ∧ job_list !! S i = Some b
           ∧ x = key a ∧ deps = [b]
           ∧ ∀ j a', i < j → S j < length job_list →
                     job_list !! j = Some a' → key a' ≠ x).
Proof.
  split; [|split; [apply _convert_list_to_graph_objects|split; [|split]]].
  - unfold _convert_list_to_graph.
    destruct (decide (length job_list = 1)).
    + destruct (job_list !! 0); simpl; repeat constructor. set_solver.
    + apply convert_fold_NoDup. constructor.
  - intros Hnil. rewrite Hnil. reflexivity.
  - intros a Ha. rewrite Ha. reflexivity.
  - intros Hlen x deps. unfold _convert_list_to_graph.
    destruct (decide (length job_list = 1)) as [|_]; [done|].
    destruct (decide (length job_list = 0)) as [Hz|Hnz].
    { rewrite Hz. simpl. split; [done|].
      intros (i & a & b & Ha%lookup_lt_Some & _). lia. }
    rewrite convert_fold_get by lia. split.
    + intros (i & a & b & Hi & Ha & Hb & -> & -> & Hlast).
      exists i, a, b. repeat split; try done.
      intros j a' Hj Hj'. apply Hlast; [done|lia].
    + intros (i & a & b & Ha & Hb & -> & -> & Hlast).
      exists i, a, b. pose proof (lookup_lt_Some _ _ _ Hb).
      repeat split; try done; [lia|].
      intros j a' Hj Hj'. apply Hlast; [done|lia].
Qed.

End ConvertListFacts.

Lemma _convert_list_to_graph_entries_witness :
  length ["A"; "B"; "A"; "C"]%string ≠ 1
  ∧ od_get string_key
      (_convert_list_to_graph string_key ["A"; "B"; "A"; "C"]%string)
      "A"%string
    = Some ["C"%string].
Proof.
  split; [done|].
  apply (proj2 (proj2 (proj2 (proj2
           (_convert_list_to_graph_entries string_key
              ["A"; "B"; "A"; "C"]%string))))); [done|].
  exists 2, "A"%string, "C"%string. repeat split.
  intros j a' Hj Hj'. simpl in Hj'. lia.
Defined.

(** ** hourly_start_time under any local offset *)

(** X9.  [hourly_start_time] for every local UTC offset, west of UTC
    included: what is subtracted is the [.seconds] field of the offset,
    that is the offset modulo one day, so the result is the input with its
    microseconds cleared moved back by between 0 s and 86399 s (for a zone
    h hours west of UTC: by 24 - h hours); it carries no microseconds;
    offsets that differ by whole days give the same result; and
    OverflowError is raised exactly when the result would fall before
    year 1. *)
Theorem hourly_start_time_any_offset (utcoffset : Z) (start_time : datetime) :
  valid_datetime start_time →
  let shift := get_timezone_offset_seconds utcoffset in
  let target :=
    (to_microseconds start_time - microsecond start_time
     - shift * 1000000)%Z in
  (0 ≤ shift < 86400)%Z
  ∧ (shift = utcoffset ↔ 0 ≤ utcoffset < 86400)%Z
  ∧ ((-86400 < utcoffset < 0)%Z → shift = (utcoffset + 86400)%Z)
  ∧ (∀ k, hourly_start_time (utcoffset + k * 86400) start_time
          = hourly_start_time utcoffset start_time)
  ∧ if decide (86400 * 1000000 ≤ target)%Z then
      ∃ r, hourly_start_time utcoffset start_time = Return r
           ∧ valid_datetime r ∧ microsecond r = 0%Z
           ∧ to_microseconds r = target
    else hourly_start_time utcoffset start_time = Raise OverflowError.
Proof.
  intros Hvalid shift target. subst target shift.
  rewrite get_timezone_offset_seconds_mod.
  pose proof (Z.mod_pos_bound utcoffset 86400 ltac:(lia)) as Hshift.
  split; [done|]. split; [|split; [|split]].
  - split; [intros <-; done|]. intros Hr. by apply Z.mod_small.
  - intros Hwest. symmetry.
    apply (Z.mod_unique utcoffset 86400 (-1) (utcoffset + 86400)); lia.
  - intros k. unfold hourly_start_time.
    rewrite !get_timezone_offset_seconds_mod. by rewrite Z.mod_add.
  - unfold hourly_start_time. rewrite get_timezone_offset_seconds_mod.
    set (s := (utcoffset mod 86400)%Z) in *.
    set (d0 := {| toordinal := toordinal start_time; hour := hour start_time;
                  minute := minute start_time; second := second start_time;
                  microsecond := 0 |}).
    assert (Hv0 : valid_datetime d0).
    { unfold valid_datetime in *. simpl. lia. }
    assert (Hoff : (0 ≤ s ≤ 86400)%Z) by lia.
    assert (Hsub := datetime_sub_seconds d0 s Hv0 eq_refl Hoff).
    assert (Hpos : to_microseconds d0
                   = (to_microseconds start_time - microsecond start_time)%Z).
    { unfold to_microseconds. simpl. lia. }
    cbv zeta in Hsub. rewrite Hpos in Hsub.
    destruct (decide _) as [Hge|Hlt]; [|exact Hsub].
    destruct Hsub as (r & Hr & Hvr & Hto). exists r.
    split; [done|]. split; [done|]. split; [|done].
    unfold to_microseconds, valid_datetime in *. lia.
Qed.

Lemma hourly_start_time_any_offset_witness :
  valid_datetime example_now
  ∧ get_timezone_offset_seconds (-18000) = 68400%Z
  ∧ ∃ r, hourly_start_time (-18000) example_now = Return r
         ∧ to_microseconds r
           = (to_microseconds example_now - microsecond example_now
              - 68400 * 1000000)%Z.
Proof.
  assert (Hv : valid_datetime example_now) by (vm_compute; intuition congruence).
  split; [exact Hv|]. split; [reflexivity|].
  pose proof (hourly_start_time_any_offset (-18000) example_now Hv) as Hh.
  cbv zeta in Hh. destruct Hh as (_ & _ & _ & _ & Hh).
  destruct (decide _) as [_|Hn] in Hh.
  - destruct Hh as (r & Hr & _ & _ & Hto). by exists r.
  - exfalso. apply Hn. vm_compute. discriminate.
Defined.

(** ** Workflow.call_on_graph_nodes *)

Section WorkflowTraversal.
Context {World : Type}.

Lemma constructed_definition (self : Workflow (World:=World)) :
  constructed self →
  acyclic node_key (definition_job_graph (definition self))
  ∧ JobOrderResolver_init node_key (definition_job_graph (definition self))
    = Return (job_order_resolver (definition self)).
Proof.
  intros [jobs Hinit]. unfold Definition_init in Hinit.
  destruct (_build_graph jobs) as [g| |] eqn:Hg; simpl in Hinit; try done.
  destruct (JobOrderResolver_init node_key g) as [r| |] eqn:Hr; simpl in Hinit;
    try done.
  injection Hinit as Hinit. rewrite <- Hinit. simpl. split; [|done].
  unfold _build_graph in Hg.
  match type of Hg with
  | match validate node_key ?a with _ => _ end = _ =>
      destruct (validate node_key a) as [[]|[j]|] eqn:Hv; try done;
      injection Hg as <-; by apply validate_Return_acyclic
  end.
Qed.

(** X10.  [Workflow.call_on_graph_nodes] and
    [Definition.call_on_graph_nodes] on a constructed workflow: the
    traversal returns; the consumer is invoked on exactly the jobs of
    [build_sequential_order], in that order, each once; with each job it
    is handed exactly the jobs that list it as a dependency target; and
    every job handed over as a parent was itself consumed strictly
    earlier. *)
Theorem Workflow_call_on_graph_nodes_order (self : Workflow (World:=World)) :
  constructed self →
  ∃ calls,
    Workflow_call_on_graph_nodes self record_call [] = Return calls
    ∧ (∀ C (consumer : Node → list Node → C → C) c,
         Workflow_call_on_graph_nodes self consumer c
         = Return (replay consumer calls c))
    ∧ build_sequential_order self = Return (map fst calls)
    ∧ NoDup (map node_key (map fst calls))
    ∧ ∀ i n ps, calls !! i = Some (n, ps) →
        (∀ a, a ∈ map node_key ps
              ↔ edge node_key (definition_job_graph (definition self)) a (node_key n))
        ∧ ∀ p, p ∈ ps → node_key p ∈ map node_key (map fst (take i calls)).
Proof.
  intros Hc. destruct (constructed_definition self Hc) as [Hac Hinit].
  destruct (JobOrderResolver_spec node_key (definition_job_graph (definition self)))
    as (r & calls & Hr & Hrec & Hany & Horder & Hnd & _ & Hok & Hpar).
  rewrite Hinit in Hr. injection Hr as <-.
  exists calls.
  unfold Workflow_call_on_graph_nodes, Definition_call_on_graph_nodes,
    build_sequential_order, sequential_order.
  split; [done|]. split; [done|]. split; [done|].
  split; [by rewrite map_map|].
  intros i n ps Hi. destruct (Hok i n ps Hi) as [Hget Hps].
  split; [by apply Hpar|].
  intros p Hp. destruct (Hps p Hp) as [Hearly|Hpath].
  - by rewrite map_map.
  - exfalso. apply (Hac (node_key n)).
    eapply tc_r; [exact Hpath|].
    apply (Hpar _ _ Hget). apply list_elem_of_fmap. by exists p.
Qed.

End WorkflowTraversal.

Lemma Workflow_call_on_graph_nodes_order_witness :
  ∃ (self : Workflow (World:=list string)) calls,
    constructed self
    ∧ Workflow_call_on_graph_nodes self record_call [] = Return calls
    ∧ build_sequential_order self = Return (map fst calls)
    ∧ map node_key (map fst calls)
      = [NameKey (IndexName 0); NameKey (IndexName 1)].
Proof.
  assert (Hinit : Workflow_init "wf" (JobList [logging_job "a"; logging_job "b"])
                    DEFAULT_SCHEDULE_INTERVAL
                  = Return
                      (match Workflow_init "wf"
                               (JobList [logging_job "a"; logging_job "b"])
                               DEFAULT_SCHEDULE_INTERVAL with
                       | Return self => self
                       | _ => example_workflow
                       end)) by (vm_compute; reflexivity).
  destruct (Workflow_call_on_graph_nodes_order _
              (Workflow_init_constructed _ _ _ _ Hinit))
    as (calls & Hcalls & _ & Horder & _).
  eexists _, calls. split; [exact (Workflow_init_constructed _ _ _ _ Hinit)|].
  split; [exact Hcalls|]. split; [exact Horder|].
  vm_compute in Hcalls. injection Hcalls as <-. reflexivity.
Defined.

(** ** Closed instances *)

Lemma _build_parental_map_inverts_graph_witness :
  ∃ pm,
    _build_parental_map string_key diamond = Return pm
    ∧ od_get string_key pm "D"%string = Some ["B"; "C"]%string
    ∧ ("B"%string ∈ map string_key ["B"; "C"]%string
       ↔ edge string_key diamond "B"%string "D"%string).
Proof.
  destruct (_build_parental_map_inverts_graph string_key diamond)
    as (pm & Hbuild & _ & _ & Hpar & _).
  exists pm. split; [exact Hbuild|].
  vm_compute in Hbuild. injection Hbuild as <-.
  split; [reflexivity|].
  exact (Hpar "D"%string ["B"; "C"]%string eq_refl "B"%string).
Defined.

Lemma call_on_graph_nodes_passes_parents_witness :
  ∃ self calls,
    JobOrderResolver_init string_key two_cycle = Return self
    ∧ call_on_graph_nodes string_key self record_call [] = Return calls
    ∧ calls !! 0 = Some ("B", ["A"])%string
    ∧ od_get string_key (parental_map self) "B"%string = Some ["A"%string]
    ∧ path string_key two_cycle "B"%string "A"%string.
Proof.
  destruct (call_on_graph_nodes_passes_parents string_key two_cycle)
    as (self & calls & Hinit & Hcalls & Hall).
  exists self, calls. split; [exact Hinit|]. split; [exact Hcalls|].
  vm_compute in Hinit. injection Hinit as <-.
  vm_compute in Hcalls. injection Hcalls as <-.
  split; [reflexivity|].
  destruct (Hall 0 "B"%string ["A"%string] eq_refl) as (_ & Hget & _ & Hps).
  split; [exact Hget|].
  destruct (Hps "A"%string ltac:(set_solver)) as [Hearly|Hpath];
    [|exact Hpath].
  simpl in Hearly. by apply elem_of_nil in Hearly.
Defined.

Lemma job_list_find_job_witness :
  ∃ self : Workflow (World:=list string),
    Workflow_init "wf" (JobList [logging_job "a"; logging_job "b"])
      DEFAULT_SCHEDULE_INTERVAL = Return self
    ∧ _make_job_context model_strptime model_strftime self example_now
        (RuntimeStr "2020-06-27")
      = Return {| runtime := {| toordinal := 737603; hour := 0; minute := 0;
                                second := 0; microsecond := 0 |};
                  runtime_as_str := "2020-06-27"; workflow := "wf" |}
    ∧ run_job model_strptime model_strftime self example_now "b"
        (RuntimeStr "2020-06-27") []
      = (["b"%string], Return tt).
Proof.
  destruct (job_list_find_job model_strptime model_strftime
              [logging_job "a"; logging_job "b"] "wf"
              DEFAULT_SCHEDULE_INTERVAL "b")
    as (self & Hself & _ & Hrun).
  exists self. split; [exact Hself|].
  vm_compute in Hself. injection Hself as <-.
  split; [vm_compute; reflexivity|].
  exact (Hrun example_now (RuntimeStr "2020-06-27") _ [] eq_refl).
Defined.

Lemma Definition_init_iff_acyclic_witness :
  acyclic node_key
    (assembled_graph
       (JobsDict [(AJob (logging_job "a"), [AJob (logging_job "b")])]))
  ∧ ∃ d order,
      Definition_init
        (JobsDict [(AJob (logging_job "a"), [AJob (logging_job "b")])])
      = Return d
      ∧ sequential_order d = Return order
      ∧ map node_key order = [NameKey (IdName "a"); NameKey (IdName "b")].
Proof.
  assert (Hac : acyclic node_key
                  (assembled_graph
                     (JobsDict
                        [(AJob (logging_job "a"), [AJob (logging_job "b")])]))).
  { apply validate_Return_acyclic. vm_compute. reflexivity. }
  split; [exact Hac|].
  destruct (proj1 (Definition_init_iff_acyclic
                     (JobsDict
                        [(AJob (logging_job "a"), [AJob (logging_job "b")])]))
              Hac)
    as (d & order & Hd & _ & Horder & _).
  exists d, order. split; [exact Hd|]. split; [exact Horder|].
  vm_compute in Hd. injection Hd as <-.
  vm_compute in Horder. injection Horder as <-. reflexivity.
Defined.

(** ** A Definition built from a list of jobs that are not wrapped *)

Section UnwrappedJobs.
Context {World : Type}.
Variable strptime : string → string → option datetime.
Variable strftime : datetime → string → string.
Local Abbreviation Node := (Node (World:=World)).

Lemma run_loop_unwrapped (l : list Node) context : ∀ w,
  Forall (λ n, ∃ a s j f, n = Bare a s j ∧ execute j = Some f
                          ∧ ∀ c w', snd (f c w') = None) l →
  run_loop l context w
  = (fold_left (λ w n, node_effect context n w) l w, Return tt).
Proof.
  induction l as [|n l IH]; intros w Hl; simpl; [done|].
  apply Forall_cons in Hl as [(a & s & j & f & -> & Hf & Hnone) Hl].
  unfold _execute_job, node_effect. simpl. rewrite Hf.
  specialize (Hnone context w).
  destruct (f context w) as [w' [e|]] eqn:Hfw; simpl in *; [done|].
  by apply IH.
Qed.

(** X11.  [Definition] puts a list of objects into the graph as they are.
    For a list of pairwise distinct objects the definition is constructed
    and a workflow over it has the list as its sequential order.  If all
    of them are jobs that are not wrapped, each with an [execute] that
    returns normally, [run] calls [execute] on every one of them, in list
    order and with the one context, and returns normally; and with such a
    job first in the list, [find_job] raises AttributeError. *)
Theorem Definition_list_run (l : list Node) (wid interval : string) :
  NoDup (map node_key l) →
  ∃ d self,
    Definition_init (JobsList l) = Return d
    ∧ Workflow_init wid (ADefinition d) interval = Return self
    ∧ build_sequential_order self = Return l
    ∧ (∀ now runtime context w,
         _make_job_context strptime strftime self now runtime = Return context →
         Forall (λ n, ∃ a s j f, n = Bare a s j ∧ execute j = Some f
                                 ∧ ∀ c w', snd (f c w') = None) l →
         run strptime strftime self now runtime w
         = (fold_left (λ w n, node_effect context n w) l w, Return tt))
    ∧ (∀ a s j rest job_id,
         l = Bare a s j :: rest →
         find_job self job_id = Raise (AttributeError "job")).
Proof.
  intros Hnd.
  destruct (Definition_list_order l (NoDup_keys_distinct node_key l Hnd))
    as (d & Hd & _ & Horder).
  exists d. eexists. split; [done|]. split; [reflexivity|].
  split; [exact Horder|]. split.
  - intros now runtime context w Hctx Hl. unfold run.
    rewrite Hctx. unfold build_sequential_order. simpl. rewrite Horder.
    by apply run_loop_unwrapped.
  - intros a s j rest job_id Hl. unfold find_job, build_sequential_order.
    simpl. rewrite Horder, Hl. reflexivity.
Qed.

End UnwrappedJobs.

Lemma Definition_list_run_witness :
  NoDup (map node_key
           [Bare 1 "<a>" (logging_job "a"); Bare 2 "<b>" (logging_job "b")])
  ∧ ∃ d self,
      Definition_init
        (JobsList [Bare 1 "<a>" (logging_job "a"); Bare 2 "<b>" (logging_job "b")])
      = Return d
      ∧ Workflow_init "wf" (ADefinition d) DEFAULT_SCHEDULE_INTERVAL = Return self
      ∧ run model_strptime model_strftime self example_now RuntimeNone []
        = (["a"; "b"]%string, Return tt)
      ∧ find_job self "a" = Raise (AttributeError "job")
      ∧ run_job model_strptime model_strftime self example_now "a" RuntimeNone []
        = ([], Raise (AttributeError "job")).
Proof.
  assert (Hnd : NoDup (map node_key
                         [Bare 1 "<a>" (logging_job "a");
                          Bare 2 "<b>" (logging_job "b")]))
    by (by apply (bool_decide_unpack _)).
  split; [exact Hnd|].
  destruct (Definition_list_run model_strptime model_strftime
              [Bare 1 "<a>" (logging_job "a"); Bare 2 "<b>" (logging_job "b")]
              "wf" DEFAULT_SCHEDULE_INTERVAL Hnd)
    as (d & self & Hd & Hself & Horder & Hrun & Hfind).
  exists d, self. split; [exact Hd|]. split; [exact Hself|].
  vm_compute in Hd. injection Hd as <-.
  vm_compute in Hself. injection Hself as <-.
  split.
  - apply (Hrun example_now RuntimeNone _ [] eq_refl).
    repeat constructor; eexists _, _, _, _;
      (split; [reflexivity|split; [reflexivity|done]]).
  - split; [exact (Hfind _ _ _ _ "a"%string eq_refl)|].
    unfold run_job. simpl. by rewrite (Hfind _ _ _ _ "a"%string eq_refl).
Defined.
